(** * appbase: priority task queue, methods and channels

    A shallow embedding of
      - include/appbase/execution_priority_queue.hpp
      - include/appbase/method.hpp
      - include/appbase/channel.hpp
    and the properties of the specification that are stated about them. *)

From Stdlib Require Import ZArith List Permutation Sorted String Ascii Bool Arith Lia.
Import ListNotations.

Local Open Scope Z_scope.

(* ================================================================== *)
(** * Part I. Definitions                                              *)
(* ================================================================== *)

(** ** struct priority *)

Module priority.
Definition high : Z := 100.
Definition medium : Z := 50.
Definition low : Z := 10.
End priority.

(** ** Tasks and queued handlers

    A [Function] handed to [add] is a C++ closure [void()].  What a drain
    loop can observe of it is: that it ran, which calls to [add] it made on
    the queue while running, and whether it left by an exception.  [task]
    records exactly that; [tid] names the closure. *)

#[warnings="-register-all"]
Inductive task : Type :=
  Task { tid : nat; enqueues : list (Z * task); raises : bool }.

(** [queued_handler<Function>]: the priority (an [int]; only compared, never
    computed with, so [Z] needs no wrap-around) and the stored function. *)
Record queued_handler : Type :=
  { priority_ : Z; function_ : task }.

(** [operator<] on handlers compares priorities only. *)
Definition handler_lt (a b : queued_handler) : bool :=
  priority_ a <? priority_ b.

(** ** std::priority_queue

    [handlers_] is a [std::priority_queue] of handlers over [operator<].  The
    standard fixes its contract, not its layout: [push] adds one element,
    [top] is an element that no other element exceeds, [pop] removes the
    element [top] designates.  Which of several equal-priority elements is on
    top is left to the heap.  The class below is that contract; [pq_elems] is
    the (ghost) content of the queue. *)

Class PriorityQueue : Type :=
  { pq : Type;
    pq_new : pq;
    pq_push : queued_handler -> pq -> pq;
    pq_top : pq -> option queued_handler;      (* [None] iff [empty()] *)
    pq_pop : pq -> pq;
    pq_elems : pq -> list queued_handler;
    pq_new_elems : pq_elems pq_new = [];
    pq_push_elems : forall h q, Permutation (pq_elems (pq_push h q)) (h :: pq_elems q);
    pq_top_none : forall q, pq_top q = None <-> pq_elems q = [];
    pq_top_max : forall q h, pq_top q = Some h ->
                 Forall (fun x => handler_lt h x = false) (pq_elems q);
    pq_pop_elems : forall q h, pq_top q = Some h ->
                   Permutation (h :: pq_elems (pq_pop q)) (pq_elems q) }.

Definition pq_empty `{PriorityQueue} (q : pq) : bool :=
  match pq_top q with None => true | Some _ => false end.

(** *** Reference implementations: an unordered list, leftmost maximum on top

    The two differ in where [push] puts the new element, and so in which of
    several equal-priority handlers comes out first. *)

Fixpoint list_top (l : list queued_handler) : option queued_handler :=
  match l with
  | [] => None
  | h :: t => match list_top t with
              | None => Some h
              | Some m => if handler_lt h m then Some m else Some h
              end
  end.

Fixpoint list_pop (l : list queued_handler) : list queued_handler :=
  match l with
  | [] => []
  | h :: t => match list_top t with
              | None => []
              | Some m => if handler_lt h m then h :: list_pop t else t
              end
  end.

Definition list_push (h : queued_handler) (l : list queued_handler) :=
  l ++ [h].

Definition list_push_front (h : queued_handler) (l : list queued_handler) :=
  h :: l.

#[program] Definition list_queue
  (push : queued_handler -> list queued_handler -> list queued_handler)
  (push_adds : forall h q, Permutation (push h q) (h :: q)) : PriorityQueue :=
  {| pq := list queued_handler;
     pq_new := [];
     pq_push := push;
     pq_top := list_top;
     pq_pop := list_pop;
     pq_elems := fun l => l |}.
Next Obligation.
  split.
  - destruct q as [|h t]; [reflexivity|]. simpl.
    destruct (list_top t) as [m|]; [destruct (handler_lt h m)|]; discriminate.
  - intros ->. reflexivity.
Qed.
Next Obligation.
  unfold handler_lt. revert h H.
  induction q as [|a t IH]; intros h Hh; [constructor|].
  simpl in Hh. destruct (list_top t) as [m|] eqn:Ht.
  - specialize (IH m eq_refl). unfold handler_lt in Hh.
    destruct (priority_ a <? priority_ m) eqn:Hlt; inversion Hh; subst.
    + constructor; [apply Z.ltb_ge; apply Z.ltb_lt in Hlt; lia | exact IH].
    + apply Z.ltb_ge in Hlt. constructor; [apply Z.ltb_ge; lia|].
      eapply Forall_impl; [|exact IH]. simpl. intros x Hx.
      apply Z.ltb_ge. apply Z.ltb_ge in Hx. lia.
  - inversion Hh; subst. destruct t as [|b t'].
    + constructor; [apply Z.ltb_ge; lia | constructor].
    + simpl in Ht.
      destruct (list_top t') as [m|]; [destruct (handler_lt b m)|]; discriminate.
Qed.
Next Obligation.
  revert h H. induction q as [|a t IH]; intros h Hh; [discriminate|].
  simpl in *. destruct (list_top t) as [m|] eqn:Ht.
  - destruct (handler_lt a m); inversion Hh; subst.
    + rewrite perm_swap. constructor. apply IH. reflexivity.
    + reflexivity.
  - inversion Hh; subst. destruct t as [|b t']; [reflexivity|].
    simpl in Ht.
    destruct (list_top t') as [m|]; [destruct (handler_lt b m)|]; discriminate.
Qed.

(** Equal priorities leave in insertion order. *)
Definition ListQueue : PriorityQueue :=
  list_queue list_push (fun h q => Permutation_sym (Permutation_cons_append q h)).

(** Equal priorities leave in reverse insertion order. *)
Definition StackQueue : PriorityQueue :=
  list_queue list_push_front (fun h q => Permutation_refl (h :: q)).

(** ** class execution_priority_queue *)

Section ExecutionPriorityQueue.
Context {Q : PriorityQueue}.

(** The queue object together with the log of handler executions so far
    (the log is the observable effect of running the closures). *)
Record queue_state : Type :=
  { handlers_ : pq; trace : list queued_handler }.

(** How a call into the queue can end. [OutOfFuel] is the model's bound on
    loop iterations, not a behaviour of the code. *)
Inductive completion (A : Type) : Type :=
| Returned (a : A) (st : queue_state)
| Threw (st : queue_state)
| OutOfFuel (st : queue_state).

(** [add(priority, function)] *)
Definition add (p : Z) (f : task) (q : pq) : pq :=
  pq_push {| priority_ := p; function_ := f |} q.

Definition add_all (l : list (Z * task)) (q : pq) : pq :=
  fold_left (fun q' pf => add (fst pf) (snd pf) q') l q.

(** [handler->execute()]: runs [function_()].  The closure's own calls to
    [add] land in the queue while the handler is still in it; the flag tells
    whether the closure threw. *)
Definition execute (h : queued_handler) (st : queue_state) : bool * queue_state :=
  (raises (function_ h),
   {| handlers_ := add_all (enqueues (function_ h)) (handlers_ st);
      trace := trace st ++ [h] |}).

Definition pop (st : queue_state) : queue_state :=
  {| handlers_ := pq_pop (handlers_ st); trace := trace st |}.

(** [execute_all()]: [while (!empty()) { top()->execute(); pop(); }] *)
Fixpoint execute_all (fuel : nat) (st : queue_state) : completion unit :=
  match pq_top (handlers_ st) with
  | None => Returned unit tt st
  | Some top =>
      match fuel with
      | O => OutOfFuel unit st
      | S fuel' =>
          let (threw, st1) := execute top st in
          if threw then Threw unit st1
          else execute_all fuel' (pop st1)
      end
  end.

(** [execute_highest()] *)
Fixpoint execute_highest (fuel : nat) (st : queue_state) : completion bool :=
  match pq_top (handlers_ st) with
  | None => Returned bool (negb (pq_empty (handlers_ st))) st
  | Some top =>
      match fuel with
      | O => OutOfFuel bool st
      | S fuel' =>
          let priority := priority_ top in
          let (threw, st1) := execute top st in
          if threw then Threw bool st1
          else
            let st2 := pop st1 in
            if priority <? priority.high
            then Returned bool (negb (pq_empty (handlers_ st2))) st2
            else execute_highest fuel' st2
      end
  end.

(** [execute_high()] *)
Fixpoint execute_high (fuel : nat) (st : queue_state) : completion unit :=
  match pq_top (handlers_ st) with
  | None => Returned unit tt st
  | Some top =>
      if priority_ top <? priority.high then Returned unit tt st
      else
        match fuel with
        | O => OutOfFuel unit st
        | S fuel' =>
            let (threw, st1) := execute top st in
            if threw then Threw unit st1
            else execute_high fuel' (pop st1)
        end
  end.


(** *** class executor

    [context_] is a reference to a queue: an address into the collection of
    live queues.  [exec_priority_] is the member [priority_]. *)
Record executor : Type :=
  { context_ : nat; exec_priority_ : Z }.

Definition queues : Type := nat -> queue_state.

(** [context_.add(p, f)] *)
Definition context_add (ex : executor) (p : Z) (f : task) (w : queues) : queues :=
  fun a =>
    if Nat.eqb a (context_ ex)
    then {| handlers_ := add p f (handlers_ (w a)); trace := trace (w a) |}
    else w a.

Definition dispatch {Allocator : Type} (ex : executor) (f : task) (_ : Allocator)
  : queues -> queues := context_add ex (exec_priority_ ex) f.

Definition post {Allocator : Type} (ex : executor) (f : task) (_ : Allocator)
  : queues -> queues := context_add ex (exec_priority_ ex) f.

Definition defer {Allocator : Type} (ex : executor) (f : task) (_ : Allocator)
  : queues -> queues := context_add ex (exec_priority_ ex) f.

Definition executor_eq (a b : executor) : bool :=
  Nat.eqb (context_ a) (context_ b) && (exec_priority_ a =? exec_priority_ b).

End ExecutionPriorityQueue.

Arguments Returned {Q A} a st.
Arguments Threw {Q A} st.
Arguments OutOfFuel {Q A} st.

(** ** boost::signals2, as far as method.hpp and channel.hpp use it

    A signal owns an ordered list of connection bodies and one combiner
    object (the [DispatchPolicy]), built once with the signal and called by
    reference at every emission.  Grouped slots are kept in ascending group
    order, a new slot going behind the slots of its own group; ungrouped
    slots ([connect(cb)], at the back) follow all grouped ones.  A
    [connection] is a weak reference to a body: copying or destroying it
    leaves the body alone, [disconnect()] clears the body's flag, and an
    empty or moved-from connection is not [connected()].  Emission walks the
    bodies that are connected. *)

Section Signals2.
Variables Slot Combiner : Type.

Record connection_body : Type :=
  { body_id : nat; group : option Z; is_connected : bool; slot_function : Slot }.

Record signal : Type :=
  { bodies : list connection_body; combiner : Combiner; next_id : nat }.

Definition connection : Type := option nat.

Definition goes_before (g : option Z) (b : connection_body) : bool :=
  match g, group b with
  | Some x, Some y => x <? y       (* std::less<int> on groups *)
  | Some _, None => true
  | None, _ => false
  end.

Fixpoint insert_body (n : connection_body) (l : list connection_body) :=
  match l with
  | [] => [n]
  | b :: r => if goes_before (group n) b then n :: l else b :: insert_body n r
  end.

Definition connect (g : option Z) (f : Slot) (s : signal) : connection * signal :=
  (Some (next_id s),
   {| bodies := insert_body {| body_id := next_id s; group := g;
                               is_connected := true; slot_function := f |}
                            (bodies s);
      combiner := combiner s;
      next_id := S (next_id s) |}).

Definition refers_to (c : connection) (b : connection_body) : bool :=
  match c with
  | None => false
  | Some i => Nat.eqb (body_id b) i
  end.

Definition connected (c : connection) (s : signal) : bool :=
  existsb (fun b => refers_to c b && is_connected b) (bodies s).

Definition disconnect (c : connection) (s : signal) : signal :=
  {| bodies := map (fun b => if refers_to c b
                             then {| body_id := body_id b; group := group b;
                                     is_connected := false;
                                     slot_function := slot_function b |}
                             else b) (bodies s);
     combiner := combiner s;
     next_id := next_id s |}.

(** The range a combiner is handed: the connected bodies, in order. *)
Definition slot_calls (s : signal) : list connection_body :=
  filter is_connected (bodies s).

Definition num_slots (s : signal) : nat := List.length (slot_calls s).

(** A connection going out of scope. *)
Definition connection_destroy (c : connection) (s : signal) : signal := s.

(** Move construction: the target takes the reference, the source is left
    empty. *)
Definition connection_move (c : connection) : connection * connection :=
  (c, None).

End Signals2.

Arguments body_id {Slot} _.
Arguments group {Slot} _.
Arguments is_connected {Slot} _.
Arguments slot_function {Slot} _.
Arguments bodies {Slot Combiner} _.
Arguments combiner {Slot Combiner} _.
Arguments next_id {Slot Combiner} _.
Arguments connect {Slot Combiner} g f s.
Arguments connected {Slot Combiner} c s.
Arguments disconnect {Slot Combiner} c s.
Arguments slot_calls {Slot Combiner} s.
Arguments num_slots {Slot Combiner} s.
Arguments connection_destroy {Slot Combiner} c s.
Arguments refers_to {Slot} c b.
Arguments insert_body {Slot} n l.

(** How a call that may throw ends. *)
Inductive result (R : Type) : Type :=
| Ok (r : R)
| Exception (what : string).

Arguments Ok {R} r.
Arguments Exception {R} what.

(** ** method.hpp *)

Section Method.
Variables Args Ret : Type.

(** A provider either returns or throws; [inr d] carries what
    [boost::current_exception_diagnostic_information()] yields for the
    exception. *)
Definition provider : Type := Args -> Ret + string.

(** [struct first_success_policy { std::string err; ... }] *)
Record first_success_policy : Type := { err : string }.

Definition quote_comma_quote : string :=
  String (ascii_of_nat 34) (String (ascii_of_nat 44) (String (ascii_of_nat 34) EmptyString)).

Definition no_result (e : string) : string :=
  ("No Result Available, All providers returned exceptions[" ++ e ++ "]")%string.

Definition string_empty (s : string) : bool :=
  match s with EmptyString => true | String _ _ => false end.

(** The catch block: when [err] is not empty the three characters
    quote, comma, quote are appended to it; then the diagnostic is. *)
Definition record_failure (self : first_success_policy) (d : string)
  : first_success_policy :=
  {| err := ((if string_empty (err self) then err self
              else err self ++ quote_comma_quote) ++ d)%string |}.

(** [first_success_policy::operator()(first, last)].  Dereferencing an
    iterator runs that provider; [visited] logs the providers run. *)
Fixpoint first_success (args : Args) (first : list (connection_body provider))
         (self : first_success_policy) (visited : list nat)
  : result Ret * first_success_policy * list nat :=
  match first with
  | [] => (Exception (no_result (err self)), self, visited)
  | p :: rest =>
      match slot_function p args with
      | inl r => (Ok r, self, visited ++ [body_id p])
      | inr d => first_success args rest (record_failure self d)
                               (visited ++ [body_id p])
      end
  end.

(** [class method]: the member [_signal]. *)
Record method : Type :=
  { _signal : signal provider first_success_policy }.

Definition method_new : method :=
  {| _signal := {| bodies := []; combiner := {| err := EmptyString |}; next_id := O |} |}.

(** [class method::handle]: the member [_handle]. *)
Record handle : Type := { _handle : connection }.

Definition register_provider (p : provider) (priority : Z) (m : method)
  : handle * method :=
  let (c, s) := connect (Some priority) p (_signal m) in
  ({| _handle := c |}, {| _signal := s |}).

(** The default argument [priority = 0]. *)
Definition register_provider_default (p : provider) : method -> handle * method :=
  register_provider p 0.

(** [method::operator()]: emits the signal; the combiner keeps its state. *)
Definition invoke (m : method) (args : Args) : result Ret * method * list nat :=
  match first_success args (slot_calls (_signal m)) (combiner (_signal m)) [] with
  | (r, self, visited) =>
      (r, {| _signal := {| bodies := bodies (_signal m); combiner := self;
                           next_id := next_id (_signal m) |} |}, visited)
  end.

(** [handle::unregister()] *)
Definition unregister (h : handle) (m : method) : method :=
  if connected (_handle h) (_signal m)
  then {| _signal := disconnect (_handle h) (_signal m) |}
  else m.

(** [handle::~handle()] *)
Definition handle_destroy (h : handle) (m : method) : method :=
  unregister h m.

(** [handle(handle&&)]: the new handle and what is left of the source. *)
Definition handle_move (h : handle) : handle * handle :=
  let (c, c0) := connection_move (_handle h) in
  ({| _handle := c |}, {| _handle := c0 |}).

End Method.

Arguments _signal {Args Ret} _.
Arguments method_new {Args Ret}.
Arguments register_provider {Args Ret} p priority m.
Arguments register_provider_default {Args Ret} p m.
Arguments invoke {Args Ret} m args.
Arguments first_success {Args Ret} args first self visited.
Arguments unregister {Args Ret} h m.
Arguments handle_destroy {Args Ret} h m.

(** ** channel.hpp *)

Section Channel.
Variable Data : Type.

(** A subscriber callback returns ([false]) or throws ([true]). *)
Definition subscriber : Type := Data -> bool.

(** [struct drop_exceptions]: no members. *)
Inductive drop_exceptions : Type := drop_exceptions_default.

(** [drop_exceptions::operator()(first, last)]; [log] records each
    subscriber invocation with the payload it was given. *)
Fixpoint drop_exceptions_call (data : Data) (first : list (connection_body subscriber))
         (log : list (nat * Data)) : result unit * list (nat * Data) :=
  match first with
  | [] => (Ok tt, log)
  | s :: rest =>
      match slot_function s data with
      | true => (* catch (...) { drop } *)
          drop_exceptions_call data rest (log ++ [(body_id s, data)])
      | false =>
          drop_exceptions_call data rest (log ++ [(body_id s, data)])
      end
  end.

(** [class channel]: the signal base class.  The [io_service] behind
    [ios_ptr] is shared with the host and lives in [channel_world]. *)
Record channel : Type :=
  { base_signal : signal subscriber drop_exceptions }.

(** The closure posted by [publish], which captures [this] and a copy of
    [data] and emits the signal on the copy when run.  [payload_copies]
    below counts these captures, one per closure built; the copies made
    afterwards, when the closure itself is moved or copied into and inside
    the dispatcher, are the dispatcher's and are not counted. *)
Record fan_out : Type := { captured : Data }.

Record channel_world : Type :=
  { this_channel : channel;
    ios_posted : list fan_out;        (* handlers given to [ios_ptr->post] *)
    payload_copies : nat;             (* by-copy captures of [Data] made by [publish] *)
    deliveries : list (nat * Data) }. (* subscriber invocations *)

Definition has_subscribers (c : channel) : bool :=
  Nat.ltb 0 (num_slots (base_signal c)).

Definition publish (data : Data) (w : channel_world) : channel_world :=
  if has_subscribers (this_channel w)
  then {| this_channel := this_channel w;
          ios_posted := ios_posted w ++ [{| captured := data |}];
          payload_copies := S (payload_copies w);
          deliveries := deliveries w |}
  else w.

Definition subscribe (cb : subscriber) (c : channel) : connection * channel :=
  let (h, s) := connect None cb (base_signal c) in
  (h, {| base_signal := s |}).

Definition unsubscribe (h : connection) (c : channel) : channel :=
  {| base_signal := disconnect h (base_signal c) |}.

(** Running a posted closure: the signal emission on the captured copy,
    under the combiner. *)
Definition run_fan_out (t : fan_out) (w : channel_world) : result unit * channel_world :=
  let (r, log) := drop_exceptions_call (captured t)
                    (slot_calls (base_signal (this_channel w))) (deliveries w) in
  (r, {| this_channel := this_channel w;
         ios_posted := ios_posted w;
         payload_copies := payload_copies w;
         deliveries := log |}).

(** The dispatcher taking the oldest posted handler and running it. *)
Definition ios_run_one (w : channel_world) : option (result unit * channel_world) :=
  match ios_posted w with
  | [] => None
  | t :: rest =>
      Some (run_fan_out t {| this_channel := this_channel w;
                             ios_posted := rest;
                             payload_copies := payload_copies w;
                             deliveries := deliveries w |})
  end.

End Channel.

Arguments base_signal {Data} _.
Arguments captured {Data} _.
Arguments this_channel {Data} _.
Arguments ios_posted {Data} _.
Arguments payload_copies {Data} _.
Arguments deliveries {Data} _.
Arguments has_subscribers {Data} c.
Arguments publish {Data} data w.
Arguments subscribe {Data} cb c.
Arguments unsubscribe {Data} h c.
Arguments run_fan_out {Data} t w.
Arguments ios_run_one {Data} w.
Arguments drop_exceptions_call {Data} data first log.

(** ** Vocabulary of the properties *)




(** At or above the high tier; below it. *)
Definition high_tier (h : queued_handler) : Prop := priority.high <= priority_ h.
Definition below_high (h : queued_handler) : Prop := priority_ h < priority.high.

(** The test of the drain loops, [priority < priority::high], and its
    complement. *)
Definition under_high (h : queued_handler) : bool := priority_ h <? priority.high.

(** The handler that [add(p, f)] builds. *)
Definition handler_of (pf : Z * task) : queued_handler :=
  {| priority_ := fst pf; function_ := snd pf |}.

(** [b] may run after [a]: its priority is not greater. *)
Definition runs_before (a b : queued_handler) : Prop := priority_ b <= priority_ a.

Section Progress.
Context {Q : PriorityQueue}.

Definition queued (st : queue_state) : list queued_handler :=
  pq_elems (handlers_ st).





(** The state a call ended in. *)
Definition final_state {A : Type} (c : completion A) : queue_state :=
  match c with
  | Returned _ st => st
  | Threw st => st
  | OutOfFuel st => st
  end.



End Progress.

(** ** Vocabulary of the signal, method and channel properties *)

Section SignalVocabulary.
Variables Slot Combiner : Type.

(** Group order of the body list: ascending groups, ungrouped last. *)
Definition by_group (a b : connection_body Slot) : Prop :=
  match group a, group b with
  | Some x, Some y => x <= y
  | _, None => True
  | None, Some _ => False
  end.

(** Identities handed out so far are below [next_id]. *)
Definition signal_wf (s : signal Slot Combiner) : Prop :=
  Forall (fun b => (body_id b < next_id s)%nat) (bodies s) /\
  StronglySorted by_group (bodies s).

Definition mark_disconnected (c : connection) (b : connection_body Slot)
  : connection_body Slot :=
  if refers_to c b
  then {| body_id := body_id b; group := group b;
          is_connected := false; slot_function := slot_function b |}
  else b.

End SignalVocabulary.

Arguments by_group {Slot} a b.
Arguments signal_wf {Slot Combiner} s.
Arguments mark_disconnected {Slot} c b.

Section MethodVocabulary.
Variables Args Ret : Type.

(** The provider behind [b] throws when called with [args]. *)
Definition throws_on (args : Args) (b : connection_body (provider Args Ret)) : Prop :=
  exists d, slot_function b args = inr d.

(** [b] is visited no later than [b']: both carry a priority and that of
    [b] is not greater. *)
Definition lower_priority_first (b b' : connection_body (provider Args Ret)) : Prop :=
  exists x y, group b = Some x /\ group b' = Some y /\ x <= y.

(** The methods a program can build. *)
Inductive method_reachable : method Args Ret -> Prop :=
| reach_new : method_reachable method_new
| reach_register m p g :
    method_reachable m -> method_reachable (snd (register_provider p g m))
| reach_unregister m h :
    method_reachable m -> method_reachable (unregister h m)
| reach_invoke m args :
    method_reachable m -> method_reachable (snd (fst (invoke m args))).

(** What the catch blocks make of [err] over the diagnostics [ds]. *)
Definition aggregate (e : string) (ds : list string) : string :=
  fold_left (fun e' d => err (record_failure {| err := e' |} d)) ds e.

Definition method_wf (m : method Args Ret) : Prop :=
  signal_wf (_signal m) /\
  Forall (fun b : connection_body (provider Args Ret) => exists g, group b = Some g)
         (bodies (_signal m)).

End MethodVocabulary.

Arguments throws_on {Args Ret} args b.
Arguments lower_priority_first {Args Ret} b b'.
Arguments method_reachable {Args Ret} m.
Arguments method_wf {Args Ret} m.

Section ChannelVocabulary.
Variable Data : Type.

Definition channel_new : channel Data :=
  {| base_signal := {| bodies := []; combiner := drop_exceptions_default; next_id := O |} |}.

(** One log entry per subscriber of [subs], in order, each with [data]. *)
Definition one_delivery_each (data : Data)
           (subs : list (connection_body (subscriber Data))) : list (nat * Data) :=
  map (fun s => (body_id s, data)) subs.

End ChannelVocabulary.

Arguments channel_new {Data}.
Arguments one_delivery_each {Data} data subs.

(** ** Sample objects used to exercise the statements *)

Definition sample_task (n : nat) : task := Task n [] false.
Definition failing_task (n : nat) : task := Task n [] true.


Definition list_state (l : list (Z * task)) : queue_state (Q := ListQueue) :=
  {| handlers_ := add_all l pq_new; trace := [] |}.

Definition stack_state (l : list (Z * task)) : queue_state (Q := StackQueue) :=
  {| handlers_ := add_all l pq_new; trace := [] |}.

(** Sample providers of a method [string()]. *)
Definition p_raises : provider unit string := fun _ => inr "P1 failed"%string.
Definition p_ok : provider unit string := fun _ => inl "ok"%string.

(** [P2] registered first at priority 7, then [P1] at priority 5. *)
Definition sample_method : method unit string :=
  snd (register_provider p_raises 5 (snd (register_provider p_ok 7 method_new))).

(** The scenario of C5: one provider that throws is registered, the method
    is invoked, the provider is unregistered, the method is invoked again. *)
Definition one_failing : handle * method unit string :=
  register_provider p_raises 0 method_new.
Definition after_first_call : method unit string :=
  snd (fst (invoke (snd one_failing) tt)).
Definition nobody_left : method unit string :=
  unregister (fst one_failing) after_first_call.

(** A channel with three subscribers, the second of which always throws,
    and a host world around it. *)
Definition sample_channel : channel nat :=
  snd (subscribe (fun _ => false)
         (snd (subscribe (fun _ => true)
                 (snd (subscribe (fun _ => false) channel_new))))).

Definition world_of (c : channel nat) : channel_world nat :=
  {| this_channel := c; ios_posted := []; payload_copies := O; deliveries := [] |}.

(** A channel with one subscriber whose handle has gone out of scope. *)
Definition lone_subscription : connection * channel nat :=
  subscribe (fun _ => false) channel_new.

Definition after_handle_dropped : channel nat :=
  {| base_signal := connection_destroy (fst lone_subscription)
                      (base_signal (snd lone_subscription)) |}.

(** ** Further operations of the three headers *)

(** Neither handler is below the other under [operator<]. *)
Definition same_rank (a b : queued_handler) : Prop :=
  handler_lt a b = false /\ handler_lt b a = false.


Section ChannelHost.
Variable Data : Type.

(** The host replacing the channel's subscriber list between two steps of
    the dispatcher (a subscribe or unsubscribe that happens in between). *)
Definition set_channel (c : channel Data) (w : channel_world Data) : channel_world Data :=
  {| this_channel := c;
     ios_posted := ios_posted w;
     payload_copies := payload_copies w;
     deliveries := deliveries w |}.

End ChannelHost.

Arguments set_channel {Data} c w.

(** A method whose two providers both throw. *)
Definition p_raises_too : provider unit string := fun _ => inr "P2 failed"%string.

Definition both_failing : method unit string :=
  snd (register_provider p_raises_too 1 (snd (register_provider p_raises 0 method_new))).

(* ================================================================== *)
(** * Part II. Properties                                              *)
(* ================================================================== *)

(** ** The priority queue *)

Section QueueFacts.
Context {Q : PriorityQueue}.

Lemma top_queued (q : pq) (h : queued_handler) :
  pq_top q = Some h -> In h (pq_elems q).
Proof.
  intros Ht. eapply Permutation_in; [apply (pq_pop_elems q h Ht)|]. now left.
Qed.

Lemma top_greatest (q : pq) (h : queued_handler) :
  pq_top q = Some h -> Forall (runs_before h) (pq_elems q).
Proof.
  intros Ht. eapply Forall_impl; [|apply (pq_top_max q h Ht)].
  unfold handler_lt, runs_before. intros x Hx. apply Z.ltb_ge in Hx. exact Hx.
Qed.

Lemma empty_iff_nothing_queued (q : pq) :
  pq_empty q = true <-> pq_elems q = [].
Proof.
  unfold pq_empty. rewrite <- pq_top_none.
  destruct (pq_top q); split; congruence.
Qed.









End QueueFacts.


Section DrainLoops.
Context {Q : PriorityQueue}.

Lemma execute_all_eq (fuel : nat) (st : queue_state) :
  execute_all fuel st =
  match pq_top (handlers_ st) with
  | None => Returned tt st
  | Some top =>
      match fuel with
      | O => OutOfFuel st
      | S fuel' =>
          let (threw, st1) := execute top st in
          if threw then Threw st1 else execute_all fuel' (pop st1)
      end
  end.
Proof. destruct fuel; reflexivity. Qed.

Lemma execute_highest_eq (fuel : nat) (st : queue_state) :
  execute_highest fuel st =
  match pq_top (handlers_ st) with
  | None => Returned (negb (pq_empty (handlers_ st))) st
  | Some top =>
      match fuel with
      | O => OutOfFuel st
      | S fuel' =>
          let (threw, st1) := execute top st in
          if threw then Threw st1
          else if priority_ top <? priority.high
               then Returned (negb (pq_empty (handlers_ (pop st1)))) (pop st1)
               else execute_highest fuel' (pop st1)
      end
  end.
Proof. destruct fuel; reflexivity. Qed.

Lemma execute_high_eq (fuel : nat) (st : queue_state) :
  execute_high fuel st =
  match pq_top (handlers_ st) with
  | None => Returned tt st
  | Some top =>
      if priority_ top <? priority.high then Returned tt st
      else match fuel with
           | O => OutOfFuel st
           | S fuel' =>
               let (threw, st1) := execute top st in
               if threw then Threw st1 else execute_high fuel' (pop st1)
           end
  end.
Proof. destruct fuel; reflexivity. Qed.






End DrainLoops.

Section DrainHighest.
Context {Q : PriorityQueue}.



End DrainHighest.

Section Tiers.


Lemma filter_keeps_all {A : Type} (f : A -> bool) (l : list A) :
  Forall (fun x => f x = true) l -> filter f l = l.
Proof.
  induction 1 as [|x l Hx _ IH]; simpl; [reflexivity|].
  rewrite Hx, IH. reflexivity.
Qed.

Lemma filter_drops_all {A : Type} (f : A -> bool) (l : list A) :
  Forall (fun x => f x = false) l -> filter f l = [].
Proof.
  induction 1 as [|x l Hx _ IH]; simpl; [reflexivity|].
  rewrite Hx, IH. reflexivity.
Qed.


Lemma below_high_under_high (h : queued_handler) :
  below_high h <-> under_high h = true.
Proof. unfold below_high, under_high. rewrite Z.ltb_lt. reflexivity. Qed.

Lemma tier_exclusive (h : queued_handler) : high_tier h -> below_high h -> False.
Proof. unfold high_tier, below_high. lia. Qed.


End Tiers.

Section QueueClaims.
Context {Q : PriorityQueue}.

Lemma add_all_queued (l : list (Z * task)) :
  forall q, Permutation (pq_elems (add_all l q)) (map handler_of l ++ pq_elems q).
Proof.
  induction l as [|pf l IH]; intros q; simpl; [reflexivity|].
  unfold add_all in *. simpl. rewrite IH. unfold add.
  rewrite pq_push_elems. fold (handler_of pf).
  symmetry. apply Permutation_middle.
Qed.




End QueueClaims.





(** The order of equal priorities is the heap's: the two reference queues
    run the same two additions in opposite orders. *)
Lemma equal_priorities_leave_in_either_order :
  (exists st, execute_all 2 (list_state [(50, sample_task 1); (50, sample_task 2)])
              = Returned tt st /\
              map (fun h => tid (function_ h)) (trace st) = [1%nat; 2%nat]) /\
  (exists st, execute_all 2 (stack_state [(50, sample_task 1); (50, sample_task 2)])
              = Returned tt st /\
              map (fun h => tid (function_ h)) (trace st) = [2%nat; 1%nat]).
Proof. split; eexists; split; reflexivity. Qed.

Section HighestClaims.
Context {Q : PriorityQueue}.


Lemma returned_flag (st' : queue_state) :
  negb (pq_empty (handlers_ st')) = true <-> queued st' <> [].
Proof.
  rewrite negb_true_iff, <- not_true_iff_false, empty_iff_nothing_queued.
  reflexivity.
Qed.





End HighestClaims.





Section HighClaims.
Context {Q : PriorityQueue}.

(** Whatever the tasks do, [execute_high] only starts handlers of the
    high tier. *)
Lemma execute_high_only_high (fuel : nat) :
  forall st, exists ran,
    trace (final_state (execute_high fuel st)) = trace st ++ ran /\
    Forall high_tier ran.
Proof.
  induction fuel as [|fuel IH]; intros st; rewrite execute_high_eq;
    destruct (pq_top (handlers_ st)) as [h|] eqn:Ht;
    try destruct (priority_ h <? priority.high) eqn:Hlow;
    try (exists []; simpl; rewrite app_nil_r; split; [reflexivity | constructor]).
  apply Z.ltb_ge in Hlow. unfold execute.
  destruct (raises (function_ h)).
  - exists [h]. simpl. split; [reflexivity | repeat constructor; exact Hlow].
  - match goal with |- context [execute_high fuel ?s] => destruct (IH s) as (ran & Htr & Hh) end.
    exists (h :: ran). rewrite Htr. simpl. rewrite <- app_assoc.
    split; [reflexivity | constructor; assumption].
Qed.


(** The loop test: a top below the high tier ends the call at once. *)
Lemma execute_high_stops_below_high (fuel : nat) (st : queue_state)
      (h : queued_handler) :
  pq_top (handlers_ st) = Some h -> below_high h ->
  execute_high fuel st = Returned tt st.
Proof.
  intros Ht Hb. rewrite execute_high_eq, Ht.
  apply below_high_under_high in Hb. unfold under_high in Hb. rewrite Hb.
  reflexivity.
Qed.

Lemma execute_high_nothing_to_do (fuel : nat) (st : queue_state) :
  Forall below_high (queued st) -> execute_high fuel st = Returned tt st.
Proof.
  intros Hb. destruct (pq_top (handlers_ st)) as [h|] eqn:Ht.
  - apply execute_high_stops_below_high with (h := h); [exact Ht|].
    eapply (proj1 (Forall_forall _ _)); [exact Hb | apply top_queued; exact Ht].
  - rewrite execute_high_eq, Ht. reflexivity.
Qed.



End HighClaims.






Section AbortClaims.
Context {Q : PriorityQueue}.



End AbortClaims.




(** The same order of execute and pop shows when a task enqueues work above
    itself: the pop that follows takes the new handler, which is never
    run, and the task that enqueued it is still queued and runs again. *)
Lemma enqueuing_task_is_run_again :
  exists st,
    execute_all 2 (list_state [(10, Task 1 [(100, sample_task 2)] false)])
    = OutOfFuel st /\
    map (fun h => tid (function_ h)) (trace st) = [1%nat; 1%nat] /\
    map (fun h => tid (function_ h)) (queued st) = [1%nat].
Proof. eexists. split; [reflexivity|]. split; reflexivity. Qed.

(** C3. The three verbs of the executor, [dispatch], [post] and [defer],
    do the same thing for every task, allocator and bound priority: each is
    [add(priority_, f)] on the queue the executor is bound to; the task is
    added to that queue at the bound priority, nothing is executed (no
    queue's execution log changes) and no other queue is touched. *)
Theorem executor_verbs_only_enqueue
        (Q : PriorityQueue) (Allocator : Type) (ex : executor) (f : task)
        (a : Allocator) (w : queues) (addr : nat) :
  dispatch ex f a w = context_add ex (exec_priority_ ex) f w /\
  post ex f a w = dispatch ex f a w /\
  defer ex f a w = dispatch ex f a w /\
  handlers_ (dispatch ex f a w (context_ ex))
    = add (exec_priority_ ex) f (handlers_ (w (context_ ex))) /\
  Permutation (queued (dispatch ex f a w (context_ ex)))
              (handler_of (exec_priority_ ex, f) :: queued (w (context_ ex))) /\
  trace (dispatch ex f a w addr) = trace (w addr) /\
  (addr <> context_ ex -> dispatch ex f a w addr = w addr).
Proof.
  unfold post, defer, dispatch, context_add.
  rewrite Nat.eqb_refl. repeat split.
  - unfold queued, add. simpl. apply pq_push_elems.
  - destruct (Nat.eqb addr (context_ ex)); reflexivity.
  - intros Hne. apply Nat.eqb_neq in Hne. rewrite Hne. reflexivity.
Qed.

Lemma executor_verbs_only_enqueue_witness :
  dispatch {| context_ := 0; exec_priority_ := priority.medium |} (sample_task 1) tt
           (fun _ => list_state []) 1%nat
  = list_state [].
Proof.
  apply (executor_verbs_only_enqueue ListQueue unit
           {| context_ := 0; exec_priority_ := priority.medium |} (sample_task 1) tt
           (fun _ => list_state []) 1%nat).
  discriminate.
Defined.

(** ** Signals: order and identity of the connection bodies *)

Section SignalFacts.
Variables Slot Combiner : Type.

Lemma by_group_goes_before (n b : connection_body Slot) :
  goes_before Slot (group n) b = true -> by_group n b.
Proof.
  unfold goes_before, by_group.
  destruct (group n), (group b); try discriminate; auto.
  intros H. apply Z.ltb_lt in H. lia.
Qed.

Lemma by_group_stays_behind (n b : connection_body Slot) :
  goes_before Slot (group n) b = false -> by_group b n.
Proof.
  unfold goes_before, by_group.
  destruct (group n), (group b); try discriminate; auto.
  intros H. apply Z.ltb_ge in H. exact H.
Qed.

Lemma by_group_trans (a b c : connection_body Slot) :
  by_group a b -> by_group b c -> by_group a c.
Proof.
  unfold by_group. destruct (group a), (group b), (group c); auto; try lia; tauto.
Qed.

Lemma insert_body_in (n : connection_body Slot) (l : list (connection_body Slot)) :
  forall x, In x (insert_body n l) <-> x = n \/ In x l.
Proof.
  induction l as [|b r IH]; intros x; simpl.
  - split; intros [H|H]; auto; contradiction.
  - destruct (goes_before Slot (group n) b); simpl.
    + split; intros [H|H]; auto.
    + rewrite IH. split; intros [H|[H|H]]; auto.
Qed.

Lemma insert_body_sorted (n : connection_body Slot) (l : list (connection_body Slot)) :
  StronglySorted by_group l -> StronglySorted by_group (insert_body n l).
Proof.
  induction 1 as [|b r Hs IH Hb]; simpl.
  - repeat constructor.
  - destruct (goes_before Slot (group n) b) eqn:Hg.
    + constructor; [constructor; assumption|].
      apply by_group_goes_before in Hg. constructor; [exact Hg|].
      eapply Forall_impl; [|exact Hb]. intros x. now apply by_group_trans.
    + constructor; [exact IH|].
      apply Forall_forall. intros x Hx. apply insert_body_in in Hx.
      destruct Hx as [-> | Hx].
      * now apply by_group_stays_behind.
      * eapply (proj1 (Forall_forall _ _)); eassumption.
Qed.

Lemma connect_wf (g : option Z) (f : Slot) (s : signal Slot Combiner) :
  signal_wf s -> signal_wf (snd (connect g f s)).
Proof.
  intros [Hid Hs]. split; simpl.
  - apply Forall_forall. intros x Hx. apply insert_body_in in Hx.
    destruct Hx as [-> | Hx]; simpl; [lia|].
    pose proof (proj1 (Forall_forall _ _) Hid x Hx). simpl in *. lia.
  - now apply insert_body_sorted.
Qed.

Lemma disconnect_bodies (c : connection) (s : signal Slot Combiner) :
  bodies (disconnect c s) = map (mark_disconnected c) (bodies s).
Proof. reflexivity. Qed.

Lemma mark_disconnected_id (c : connection) (b : connection_body Slot) :
  body_id (mark_disconnected c b) = body_id b.
Proof. unfold mark_disconnected. destruct (refers_to c b); reflexivity. Qed.

Lemma mark_disconnected_group (c : connection) (b : connection_body Slot) :
  group (mark_disconnected c b) = group b.
Proof. unfold mark_disconnected. destruct (refers_to c b); reflexivity. Qed.

Lemma sorted_map_same_group (f : connection_body Slot -> connection_body Slot)
      (l : list (connection_body Slot)) :
  (forall b, group (f b) = group b) ->
  StronglySorted by_group l -> StronglySorted by_group (map f l).
Proof.
  intros Hf. induction 1 as [|b r Hs IH Hb]; simpl; constructor; auto.
  apply Forall_map. eapply Forall_impl; [|exact Hb].
  intros x. unfold by_group. rewrite !Hf. auto.
Qed.

Lemma disconnect_wf (c : connection) (s : signal Slot Combiner) :
  signal_wf s -> signal_wf (disconnect c s).
Proof.
  intros [Hid Hs]. split.
  - rewrite disconnect_bodies. apply Forall_map.
    eapply Forall_impl; [|exact Hid]. intros b. rewrite mark_disconnected_id. auto.
  - rewrite disconnect_bodies. apply sorted_map_same_group; auto.
    intros b. apply mark_disconnected_group.
Qed.

Lemma sorted_filter (f : connection_body Slot -> bool)
      (l : list (connection_body Slot)) :
  StronglySorted by_group l -> StronglySorted by_group (filter f l).
Proof.
  induction 1 as [|b r Hs IH Hb]; simpl; [constructor|].
  destruct (f b); [constructor|]; auto.
  apply Forall_forall. intros x Hx. apply filter_In in Hx.
  eapply (proj1 (Forall_forall _ _)); [exact Hb | apply Hx].
Qed.

Lemma slot_calls_sorted (s : signal Slot Combiner) :
  signal_wf s -> StronglySorted by_group (slot_calls s).
Proof. intros [_ Hs]. now apply sorted_filter. Qed.

(** Disconnecting is final and idempotent. *)
Lemma connected_after_disconnect (c : connection) (s : signal Slot Combiner) :
  connected c (disconnect c s) = false.
Proof.
  unfold connected. rewrite disconnect_bodies.
  induction (bodies s) as [|b r IH]; simpl; [reflexivity|].
  rewrite IH, orb_false_r. unfold mark_disconnected.
  destruct (refers_to c b) eqn:Hr; simpl.
  - apply andb_false_r.
  - rewrite Hr. reflexivity.
Qed.

Lemma disconnect_twice (c : connection) (s : signal Slot Combiner) :
  disconnect c (disconnect c s) = disconnect c s.
Proof.
  unfold disconnect. simpl. f_equal. rewrite map_map. apply map_ext.
  intros b. destruct c as [i|]; simpl; [|reflexivity].
  destruct (Nat.eqb (body_id b) i) eqn:Hr; simpl; rewrite Hr; reflexivity.
Qed.

Lemma disconnect_nothing (s : signal Slot Combiner) :
  bodies (disconnect None s) = bodies s.
Proof. simpl. rewrite <- (map_id (bodies s)) at 2. apply map_ext. reflexivity. Qed.

(** Disconnecting takes the referenced body, and only it, out of the
    range the combiner sees. *)
Lemma slot_calls_after_disconnect (c : connection) (s : signal Slot Combiner) :
  slot_calls (disconnect c s) =
  filter (fun b => negb (refers_to c b)) (slot_calls s).
Proof.
  unfold slot_calls. simpl.
  induction (bodies s) as [|b r IH]; simpl; [reflexivity|].
  destruct (refers_to c b) eqn:Hr; simpl.
  - destruct (is_connected b); simpl; rewrite ?Hr; simpl; exact IH.
  - destruct (is_connected b); simpl; rewrite ?Hr; simpl; rewrite IH; reflexivity.
Qed.

(** A fresh connection refers to none of the older bodies. *)
Lemma fresh_refers_to_none (s : signal Slot Combiner) :
  signal_wf s ->
  Forall (fun b => refers_to (Some (next_id s)) b = false) (bodies s).
Proof.
  intros [Hid _]. eapply Forall_impl; [|exact Hid].
  intros b Hb. simpl in *. apply Nat.eqb_neq. lia.
Qed.

End SignalFacts.

(** ** Methods *)

Section MethodFacts.
Variables Args Ret : Type.

Local Abbreviation method := (method Args Ret).
Local Abbreviation body := (connection_body (provider Args Ret)).

Lemma invoke_bodies (m : method) (args : Args) :
  bodies (_signal (snd (fst (invoke m args)))) = bodies (_signal m) /\
  next_id (_signal (snd (fst (invoke m args)))) = next_id (_signal m).
Proof.
  unfold invoke.
  destruct (first_success args (slot_calls (_signal m)) (combiner (_signal m)) [])
    as [[r self] visited]. simpl. auto.
Qed.

Lemma method_reachable_wf (m : method) : method_reachable m -> method_wf m.
Proof.
  induction 1 as [|m p g _ [Hwf Hg]|m h _ [Hwf Hg]|m args _ [Hwf Hg]].
  - split; [split|]; simpl; constructor.
  - split.
    + apply (connect_wf _ _ (Some g) p (_signal m) Hwf).
    + simpl. apply Forall_forall. intros x Hx. apply insert_body_in in Hx.
      destruct Hx as [-> | Hx]; [exists g; reflexivity|].
      exact (proj1 (Forall_forall _ _) Hg x Hx).
  - unfold unregister. destruct (connected (_handle h) (_signal m)).
    + split; [now apply disconnect_wf|]. simpl. apply Forall_map.
      eapply Forall_impl; [|exact Hg]. intros b [x Hx]. exists x.
      destruct (refers_to (_handle h) b); simpl; exact Hx.
    + split; assumption.
  - destruct (invoke_bodies m args) as [Hb Hn]. destruct Hwf as [Hid Hs].
    split; [split|]; rewrite ?Hb, ?Hn; assumption.
Qed.

Lemma visited_in_priority_order (m : method) :
  method_reachable m ->
  StronglySorted lower_priority_first (slot_calls (_signal m)).
Proof.
  intros Hr. destruct (method_reachable_wf m Hr) as [Hwf Hg].
  pose proof (slot_calls_sorted _ _ _ Hwf) as Hs.
  assert (Forall (fun b : body => exists g, group b = Some g) (slot_calls (_signal m)))
    as Hg'.
  { apply Forall_forall. intros x Hx. apply filter_In in Hx.
    exact (proj1 (Forall_forall _ _) Hg x (proj1 Hx)). }
  clear Hg Hwf. induction Hs as [|b r Hs IH Hb]; [constructor|].
  inversion Hg' as [|? ? [x Hx] Hr']; subst. constructor; [now apply IH|].
  apply Forall_forall. intros b' Hb'.
  pose proof (proj1 (Forall_forall _ _) Hb b' Hb') as Hle.
  destruct (proj1 (Forall_forall _ _) Hr' b' Hb') as [y Hy].
  exists x, y. unfold by_group in Hle. rewrite Hx, Hy in Hle. auto.
Qed.

(** The policy stops at the first provider that returns. *)
Lemma first_success_stops (args : Args) (p : body) (post : list body) (r : Ret) :
  slot_function p args = inl r ->
  forall pre self visited,
    Forall (throws_on args) pre ->
    exists self',
      first_success args (pre ++ p :: post) self visited
      = (Ok r, self', visited ++ map body_id pre ++ [body_id p]).
Proof.
  intros Hp. induction pre as [|b pre IH]; intros self visited Hpre; simpl.
  - rewrite Hp. exists self. reflexivity.
  - inversion Hpre as [|? ? [d Hd] Hpre']; subst. rewrite Hd.
    destruct (IH (record_failure self d) (visited ++ [body_id b]) Hpre') as [self' Heq].
    exists self'. rewrite Heq, <- app_assoc. reflexivity.
Qed.

(** If every provider throws, every one is run and the policy throws with
    the diagnostics appended to [err]. *)
Lemma first_success_all_throw (args : Args) :
  forall (l : list body) (ds : list string) self visited,
    Forall2 (fun (b : body) d => slot_function b args = inr d) l ds ->
    first_success args l self visited
    = (Exception (no_result (aggregate (err self) ds)),
       {| err := aggregate (err self) ds |},
       visited ++ map body_id l).
Proof.
  induction l as [|b l IH]; intros ds self visited Hall;
    inversion Hall as [|? d ? ds' Hd Hrest]; subst; simpl.
  - rewrite app_nil_r. destruct self. reflexivity.
  - rewrite Hd, (IH ds' _ _ Hrest), <- app_assoc. reflexivity.
Qed.

(** The policy throws exactly when every provider throws. *)
Lemma first_success_throws_iff (args : Args) :
  forall (l : list body) self visited,
    (exists what, fst (fst (first_success args l self visited)) = Exception what)
    <-> Forall (throws_on args) l.
Proof.
  induction l as [|b l IH]; intros self visited; simpl.
  - split; [constructor | eexists; reflexivity].
  - destruct (slot_function b args) as [r|d] eqn:Hb; simpl.
    + split; [intros [what H]; discriminate|].
      intros H. inversion H as [|? ? [d Hd] _]; subst. congruence.
    + rewrite IH. split; [intros H; constructor; [exists d; exact Hb | exact H]|].
      intros H. now inversion H.
Qed.

End MethodFacts.

(** C4. Under the first-success policy an invocation visits the providers
    in priority order, lower priority value first, and the first provider
    that returns supplies the result of the call: the providers before it
    threw and were each run once, the providers after it are not run, and
    the call returns the value, not an error. *)
Theorem first_success_returns_first_result
        (Args Ret : Type) (m : method Args Ret) (args : Args)
        (pre post : list (connection_body (provider Args Ret)))
        (p : connection_body (provider Args Ret)) (r : Ret) :
  method_reachable m ->
  slot_calls (_signal m) = pre ++ p :: post ->
  Forall (throws_on args) pre ->
  slot_function p args = inl r ->
  StronglySorted lower_priority_first (slot_calls (_signal m)) /\
  fst (fst (invoke m args)) = Ok r /\
  snd (invoke m args) = map body_id pre ++ [body_id p].
Proof.
  intros Hreach Hcalls Hpre Hp.
  split; [now apply visited_in_priority_order|].
  unfold invoke. rewrite Hcalls.
  destruct (first_success_stops Args Ret args p post r Hp pre (combiner (_signal m)) [] Hpre)
    as [self' Heq].
  rewrite Heq. simpl. auto.
Qed.

Lemma first_success_returns_first_result_witness :
  StronglySorted lower_priority_first (slot_calls (_signal sample_method)) /\
  fst (fst (invoke sample_method tt)) = Ok "ok"%string /\
  snd (invoke sample_method tt) = [1%nat; 0%nat].
Proof.
  apply (first_success_returns_first_result unit string sample_method tt
           [{| body_id := 1; group := Some 5; is_connected := true;
               slot_function := p_raises |}]
           []
           {| body_id := 0; group := Some 7; is_connected := true;
              slot_function := p_ok |}
           "ok"%string).
  - unfold sample_method. apply reach_register. apply reach_register. apply reach_new.
  - reflexivity.
  - constructor; [|constructor]. exists "P1 failed"%string. reflexivity.
  - reflexivity.
Defined.

Section AggregateFacts.

Lemma append_assoc (a b c : string) : ((a ++ b) ++ c = a ++ b ++ c)%string.
Proof. induction a as [|x a IH]; simpl; [reflexivity|]. rewrite IH. reflexivity. Qed.

Lemma append_not_empty (a b : string) :
  b <> EmptyString -> string_empty (a ++ b) = false.
Proof. destruct a, b; simpl; congruence. Qed.

Lemma aggregate_after (e : string) (ds : list string) :
  e <> EmptyString -> Forall (fun d => d <> EmptyString) ds ->
  aggregate e ds = String.concat quote_comma_quote (e :: ds).
Proof.
  intros He Hds. revert e He.
  induction Hds as [|d ds Hd _ IH]; intros e He; [reflexivity|].
  unfold aggregate in *. simpl fold_left.
  destruct e as [|x e]; [congruence|]. simpl string_empty. cbv iota.
  rewrite IH.
  - destruct ds; simpl; rewrite ?append_assoc; reflexivity.
  - destruct d; simpl; congruence.
Qed.

(** On a policy object whose [err] is empty the catch blocks build the
    diagnostics joined by [","]. *)
Lemma aggregate_fresh (ds : list string) :
  Forall (fun d => d <> EmptyString) ds ->
  aggregate EmptyString ds = String.concat quote_comma_quote ds.
Proof.
  intros Hds. destruct Hds as [|d ds Hd Hds]; [reflexivity|].
  unfold aggregate. simpl fold_left. now apply aggregate_after.
Qed.

End AggregateFacts.

(** The aggregate failure of an invocation: thrown exactly when every
    provider throws (so also when there is none), after every provider was
    run, with [err] extended by their diagnostics in the order visited. *)
Lemma invoke_aggregate_failure
      (Args Ret : Type) (m : method Args Ret) (args : Args) :
  ((exists what, fst (fst (invoke m args)) = Exception what)
   <-> Forall (throws_on args) (slot_calls (_signal m))) /\
  (forall ds,
     Forall2 (fun (b : connection_body (provider Args Ret)) d =>
                slot_function b args = inr d) (slot_calls (_signal m)) ds ->
     fst (fst (invoke m args))
       = Exception (no_result (aggregate (err (combiner (_signal m))) ds)) /\
     snd (invoke m args) = map body_id (slot_calls (_signal m)) /\
     err (combiner (_signal (snd (fst (invoke m args)))))
       = aggregate (err (combiner (_signal m))) ds).
Proof.
  split.
  - rewrite <- (first_success_throws_iff Args Ret args (slot_calls (_signal m))
                  (combiner (_signal m)) []).
    unfold invoke.
    destruct (first_success args (slot_calls (_signal m)) (combiner (_signal m)) [])
      as [[r self] visited]. reflexivity.
  - intros ds Hds. unfold invoke.
    rewrite (first_success_all_throw Args Ret args _ ds _ [] Hds). simpl. auto.
Qed.

(** C5, on the code.  A method whose only provider threw once and was then
    unregistered has no provider; invoking it throws the aggregate failure,
    and the message still lists the diagnostic of the earlier call, because
    [err] is a member of the policy object that is appended to and never
    cleared.  The diagnostic list is not empty. *)
Theorem zero_providers_aggregate_keeps_old_diagnostics :
  fst (fst (invoke (snd one_failing) tt)) = Exception (no_result "P1 failed") /\
  slot_calls (_signal nobody_left) = [] /\
  snd (invoke nobody_left tt) = [] /\
  fst (fst (invoke nobody_left tt)) = Exception (no_result "P1 failed") /\
  fst (fst (invoke nobody_left tt)) <> Exception (no_result "") /\
  fst (fst (invoke (method_new (Args := unit) (Ret := string)) tt))
    = Exception (no_result "").
Proof.
  repeat split; try reflexivity. vm_compute. discriminate.
Qed.

(** ** Channels *)

Section ChannelFacts.
Variable Data : Type.

Local Abbreviation sub_body := (connection_body (subscriber Data)).

Lemma has_subscribers_iff (c : channel Data) :
  has_subscribers c = false <-> slot_calls (base_signal c) = [].
Proof.
  unfold has_subscribers, num_slots.
  destruct (slot_calls (base_signal c)); cbn; split; intros H;
    try reflexivity; discriminate.
Qed.

Lemma drop_exceptions_runs_all (data : Data) :
  forall (first : list sub_body) (log : list (nat * Data)),
    drop_exceptions_call data first log
    = (Ok tt, log ++ one_delivery_each data first).
Proof.
  induction first as [|s rest IH]; intros log; simpl.
  - rewrite app_nil_r. reflexivity.
  - destruct (slot_function s data); rewrite IH, <- app_assoc; reflexivity.
Qed.

End ChannelFacts.

Section PublishFacts.
Variable Data : Type.

(** The guard of [publish] in terms of the subscriber list. *)
Lemma publish_without_subscribers (data : Data) (w : channel_world Data) :
  slot_calls (base_signal (this_channel w)) = [] -> publish data w = w.
Proof.
  intros He. apply has_subscribers_iff in He. unfold publish. rewrite He. reflexivity.
Qed.

Lemma publish_with_subscribers (data : Data) (w : channel_world Data) :
  slot_calls (base_signal (this_channel w)) <> [] ->
  publish data w
  = {| this_channel := this_channel w;
       ios_posted := ios_posted w ++ [{| captured := data |}];
       payload_copies := S (payload_copies w);
       deliveries := deliveries w |}.
Proof.
  intros Hne. unfold publish.
  destruct (has_subscribers (this_channel w)) eqn:Hs; [reflexivity|].
  exfalso. apply Hne. now apply has_subscribers_iff.
Qed.

Lemma publish_invokes_nobody (data : Data) (w : channel_world Data) :
  deliveries (publish data w) = deliveries w.
Proof.
  unfold publish. destruct (has_subscribers (this_channel w)); reflexivity.
Qed.

End PublishFacts.

(** C6. [publish] on a channel without subscribers does nothing at all:
    nothing is posted to the dispatcher and the payload is not copied.
    With at least one subscriber it copies the payload into one closure
    that it posts to the dispatcher; [publish] itself invokes no
    subscriber in either case. *)
Theorem publish_posts_only_with_subscribers
        (Data : Type) (data : Data) (w : channel_world Data) :
  (slot_calls (base_signal (this_channel w)) = [] -> publish data w = w) /\
  (slot_calls (base_signal (this_channel w)) <> [] ->
   ios_posted (publish data w) = ios_posted w ++ [{| captured := data |}] /\
   payload_copies (publish data w) = S (payload_copies w) /\
   this_channel (publish data w) = this_channel w) /\
  deliveries (publish data w) = deliveries w.
Proof.
  split; [apply publish_without_subscribers|].
  split; [|apply publish_invokes_nobody].
  intros Hne. rewrite (publish_with_subscribers Data data w Hne). simpl. auto.
Qed.

Lemma publish_posts_only_with_subscribers_witness :
  publish 7%nat (world_of channel_new) = world_of channel_new /\
  (ios_posted (publish 7%nat (world_of sample_channel)) = [] ++ [{| captured := 7%nat |}] /\
   payload_copies (publish 7%nat (world_of sample_channel)) = 1%nat /\
   this_channel (publish 7%nat (world_of sample_channel)) = sample_channel).
Proof.
  split.
  - apply (publish_posts_only_with_subscribers nat 7%nat (world_of channel_new)).
    reflexivity.
  - apply (publish_posts_only_with_subscribers nat 7%nat (world_of sample_channel)).
    discriminate.
Defined.

(** C7. Under [drop_exceptions] the fan-out that [publish] scheduled
    invokes each of the subscribers exactly once with the published
    payload, in order, whether or not some of them throw; what a subscriber
    throws is dropped: the fan-out returns normally, and so does the
    closure the dispatcher runs. *)
Theorem fan_out_reaches_every_subscriber
        (Data : Type) (data : Data) (w : channel_world Data)
        (first : list (connection_body (subscriber Data))) (log : list (nat * Data)) :
  drop_exceptions_call data first log = (Ok tt, log ++ one_delivery_each data first) /\
  List.length (one_delivery_each data first) = List.length first /\
  fst (run_fan_out {| captured := data |} w) = Ok tt /\
  deliveries (snd (run_fan_out {| captured := data |} w))
    = deliveries w ++ one_delivery_each data (slot_calls (base_signal (this_channel w))) /\
  (slot_calls (base_signal (this_channel w)) <> [] -> ios_posted w = [] ->
   exists w',
     ios_run_one (publish data w) = Some (Ok tt, w') /\
     ios_posted w' = [] /\
     deliveries w'
       = deliveries w ++ one_delivery_each data (slot_calls (base_signal (this_channel w)))).
Proof.
  split; [apply drop_exceptions_runs_all|].
  split; [apply length_map|].
  unfold run_fan_out. simpl. rewrite drop_exceptions_runs_all. simpl.
  repeat split.
  intros Hne Hq.
  rewrite (publish_with_subscribers Data data w Hne).
  unfold ios_run_one. simpl. rewrite Hq. simpl.
  unfold run_fan_out. simpl. rewrite drop_exceptions_runs_all.
  eexists. split; [reflexivity|]. simpl. auto.
Qed.

Lemma fan_out_reaches_every_subscriber_witness :
  exists w',
    ios_run_one (publish 7%nat (world_of sample_channel)) = Some (Ok tt, w') /\
    ios_posted w' = [] /\
    deliveries w' = [] ++ [(0%nat, 7%nat); (1%nat, 7%nat); (2%nat, 7%nat)].
Proof.
  apply (fan_out_reaches_every_subscriber nat 7%nat (world_of sample_channel) [] []).
  - discriminate.
  - reflexivity.
Defined.

(** ** Subscription handles *)

Section ConnectionFacts.
Variables Slot Combiner : Type.

Lemma connected_none (s : signal Slot Combiner) : connected None s = false.
Proof.
  unfold connected. induction (bodies s) as [|b r IH]; simpl; [reflexivity|].
  exact IH.
Qed.

Lemma connect_is_connected (g : option Z) (f : Slot) (s : signal Slot Combiner) :
  connected (fst (connect g f s)) (snd (connect g f s)) = true.
Proof.
  unfold connected. apply existsb_exists.
  exists {| body_id := next_id s; group := g; is_connected := true; slot_function := f |}.
  split.
  - simpl. apply insert_body_in. left. reflexivity.
  - simpl. rewrite Nat.eqb_refl. reflexivity.
Qed.

(** Connecting a slot and disconnecting it again leaves the range the
    combiner sees as it was. *)
Lemma connect_then_disconnect (g : option Z) (f : Slot) (s : signal Slot Combiner) :
  signal_wf s ->
  slot_calls (disconnect (fst (connect g f s)) (snd (connect g f s))) = slot_calls s.
Proof.
  intros Hwf. rewrite slot_calls_after_disconnect. unfold slot_calls. simpl.
  pose proof (fresh_refers_to_none _ _ s Hwf) as Hfresh.
  induction (bodies s) as [|b r IH]; simpl.
  - rewrite Nat.eqb_refl. reflexivity.
  - inversion Hfresh as [|? ? Hb Hr]; subst.
    destruct (goes_before Slot g b); simpl.
    + rewrite Nat.eqb_refl. simpl.
      destruct (is_connected b); simpl.
      * simpl in Hb. rewrite Hb. simpl. f_equal.
        apply filter_keeps_all. apply Forall_forall. intros x Hx.
        apply filter_In in Hx.
        pose proof (proj1 (Forall_forall _ _) Hr x (proj1 Hx)) as Hx'.
        simpl in Hx'. rewrite Hx'. reflexivity.
      * apply filter_keeps_all. apply Forall_forall. intros x Hx.
        apply filter_In in Hx.
        pose proof (proj1 (Forall_forall _ _) Hr x (proj1 Hx)) as Hx'.
        simpl in Hx'. rewrite Hx'. reflexivity.
    + destruct (is_connected b); simpl.
      * simpl in Hb. rewrite Hb. simpl. f_equal. now apply IH.
      * now apply IH.
Qed.

End ConnectionFacts.

Section HandleFacts.
Variables Args Ret : Type.

Lemma unregister_twice (h : handle) (m : method Args Ret) :
  unregister h (unregister h m) = unregister h m.
Proof.
  unfold unregister at 2 3.
  destruct (connected (_handle h) (_signal m)) eqn:Hc.
  - unfold unregister. simpl. rewrite connected_after_disconnect. reflexivity.
  - unfold unregister. rewrite Hc. reflexivity.
Qed.

Lemma unregister_moved_from (m : method Args Ret) :
  unregister {| _handle := None |} m = m.
Proof. unfold unregister. simpl. rewrite connected_none. reflexivity. Qed.

End HandleFacts.

(** C8, as the code has it.  [register_provider] returns a
    [method::handle]: it is connected; destroying it disconnects its entry
    and leaves the other entries as they were; unregistering twice, or
    unregistering and then destroying, is the same as unregistering once;
    moving it hands the connection to the new handle and leaves the source
    disconnected, so that destroying the source does nothing and only the
    new handle releases the entry.  [channel::subscribe] returns a plain
    [boost::signals2::connection]: it is connected, letting it go out of
    scope leaves the subscriber connected, and [unsubscribe] on it
    disconnects the subscriber, a second [unsubscribe] changing nothing. *)
Theorem handles_release_at_most_once
        (Args Ret Data : Type) (m : method Args Ret) (p : provider Args Ret) (g : Z)
        (ch : channel Data) (cb : subscriber Data) :
  method_reachable m ->
  signal_wf (base_signal ch) ->
  let h := fst (register_provider p g m) in
  let m1 := snd (register_provider p g m) in
  let h2 := fst (handle_move h) in
  let h1 := snd (handle_move h) in
  let c := fst (subscribe cb ch) in
  let ch1 := snd (subscribe cb ch) in
  (connected (_handle h) (_signal m1) = true /\
   connected (_handle h) (_signal (handle_destroy h m1)) = false /\
   slot_calls (_signal (handle_destroy h m1)) = slot_calls (_signal m)) /\
  (forall (h' : handle) (m' : method Args Ret),
     unregister h' (unregister h' m') = unregister h' m' /\
     handle_destroy h' (unregister h' m') = unregister h' m') /\
  (_handle h2 = _handle h /\
   connected (_handle h1) (_signal m1) = false /\
   handle_destroy h1 m1 = m1 /\
   handle_destroy h2 m1 = handle_destroy h m1 /\
   handle_destroy h1 (handle_destroy h2 m1) = handle_destroy h2 m1) /\
  (connected c (base_signal ch1) = true /\
   connection_destroy c (base_signal ch1) = base_signal ch1 /\
   slot_calls (base_signal (unsubscribe c ch1)) = slot_calls (base_signal ch) /\
   unsubscribe c (unsubscribe c ch1) = unsubscribe c ch1).
Proof.
  intros Hreach Hwf. simpl.
  destruct (method_reachable_wf _ _ m Hreach) as [Hm _].
  unfold handle_destroy, register_provider, subscribe, handle_move. simpl.
  pose proof (connect_is_connected _ _ (Some g) p (_signal m)) as Hconn.
  pose proof (connect_is_connected _ _ None cb (base_signal ch)) as Hconn'.
  simpl in Hconn, Hconn'.
  repeat split.
  - exact Hconn.
  - unfold unregister. simpl. rewrite Hconn. simpl.
    apply connected_after_disconnect.
  - unfold unregister. simpl. rewrite Hconn. simpl.
    apply (connect_then_disconnect _ _ (Some g) p (_signal m) Hm).
  - apply unregister_twice.
  - apply unregister_twice.
  - apply connected_none.
  - apply unregister_moved_from.
  - apply unregister_moved_from.
  - exact Hconn'.
  - apply (connect_then_disconnect _ _ None cb (base_signal ch) Hwf).
  - unfold unsubscribe. simpl. f_equal. apply disconnect_twice.
Qed.

Lemma handles_release_at_most_once_witness :
  connected (_handle (fst (register_provider p_raises 5
                             (snd (register_provider p_ok 7 method_new)))))
            (_signal sample_method) = true /\
  connected (_handle (fst (register_provider p_raises 5
                             (snd (register_provider p_ok 7 method_new)))))
            (_signal (handle_destroy
                        (fst (register_provider p_raises 5
                                (snd (register_provider p_ok 7 method_new))))
                        sample_method)) = false /\
  slot_calls (_signal (handle_destroy
                         (fst (register_provider p_raises 5
                                 (snd (register_provider p_ok 7 method_new))))
                         sample_method))
  = slot_calls (_signal (snd (register_provider p_ok 7 method_new))).
Proof.
  apply (handles_release_at_most_once unit string nat
           (snd (register_provider p_ok 7 method_new)) p_raises 5
           channel_new (fun _ => false)).
  - apply reach_register. apply reach_new.
  - split; simpl; constructor.
Defined.

(** C8, as stated, fails for channels: the handle that [subscribe] returns
    is a [boost::signals2::connection], which does not disconnect when it
    is destroyed.  After the handle of the only subscriber has gone out of
    scope the subscriber is still connected, and a publish is still
    delivered to it. *)
Lemma dropped_channel_handle_stays_subscribed :
  has_subscribers after_handle_dropped = true /\
  connected (fst lone_subscription) (base_signal after_handle_dropped) = true /\
  slot_calls (base_signal after_handle_dropped)
    <> slot_calls (base_signal (channel_new (Data := nat))) /\
  exists w',
    ios_run_one (publish 7%nat (world_of after_handle_dropped)) = Some (Ok tt, w') /\
    deliveries w' = [(0%nat, 7%nat)].
Proof.
  split; [reflexivity|]. split; [reflexivity|]. split; [discriminate|].
  eexists. split; reflexivity.
Qed.

(* ================================================================== *)
(** * Part III. Further properties of the code                         *)
(* ================================================================== *)

(** ** The order on handlers and [add] *)

(** X1. [operator<] on queued handlers is a strict weak ordering, which is
    what [std::priority_queue] asks of its comparison: it is irreflexive
    and transitive, and being unordered by it (the same priority) is
    transitive as well. *)
Theorem handler_lt_strict_weak_order :
  (forall a, handler_lt a a = false) /\
  (forall a b c, handler_lt a b = true -> handler_lt b c = true -> handler_lt a c = true) /\
  (forall a b, same_rank a b <-> priority_ a = priority_ b) /\
  (forall a b c, same_rank a b -> same_rank b c -> same_rank a c).
Proof.
  unfold same_rank, handler_lt.
  split; [intros a; apply Z.ltb_irrefl|].
  split; [intros a b c H1 H2; apply Z.ltb_lt in H1, H2; apply Z.ltb_lt; lia|].
  split.
  - intros a b. rewrite !Z.ltb_ge. lia.
  - intros a b c. rewrite !Z.ltb_ge. lia.
Qed.

Section AddFacts.
Context {Q : PriorityQueue}.

Lemma add_queued (p : Z) (f : task) (q : pq) :
  Permutation (pq_elems (add p f q)) (handler_of (p, f) :: pq_elems q).
Proof. unfold add. apply pq_push_elems. Qed.

Lemma top_after_add (p : Z) (f : task) (q : pq) :
  exists h, pq_top (add p f q) = Some h /\
            priority_ h = match pq_top q with
                          | None => p
                          | Some t => Z.max p (priority_ t)
                          end.
Proof.
  pose proof (add_queued p f q) as Hperm.
  destruct (pq_top (add p f q)) as [h|] eqn:Ht.
  - exists h. split; [reflexivity|].
    pose proof (top_greatest _ _ Ht) as Hmax. rewrite Hperm in Hmax.
    inversion Hmax as [|? ? Hnew Hold]; subst.
    unfold runs_before in Hnew. simpl in Hnew.
    pose proof (top_queued _ _ Ht) as Hin.
    apply (Permutation_in _ Hperm) in Hin.
    destruct (pq_top q) as [t|] eqn:Hq.
    + pose proof (top_queued _ _ Hq) as Htin.
      pose proof (proj1 (Forall_forall _ _) Hold t Htin) as Hth.
      unfold runs_before in Hth.
      destruct Hin as [<- | Hin]; [unfold handler_of in *; simpl in *; lia|].
      pose proof (proj1 (Forall_forall _ _) (top_greatest _ _ Hq) h Hin) as Hht.
      unfold runs_before in Hht. lia.
    + apply pq_top_none in Hq. rewrite Hq in Hin.
      destruct Hin as [<- | []]. reflexivity.
  - exfalso. apply pq_top_none in Ht. rewrite Ht in Hperm.
    apply Permutation_nil in Hperm. discriminate.
Qed.

End AddFacts.

(** X2. After [add(p, f)] the queue is not empty and the handler on top,
    the next to run, has the greater of [p] and the priority that was on
    top before ([p] itself if the queue was empty); the queue then holds
    the new handler and exactly what it held. *)
Theorem add_then_top_is_the_greater
        (Q : PriorityQueue) (p : Z) (f : task) (q : pq) :
  (exists h, pq_top (add p f q) = Some h /\
             priority_ h = match pq_top q with
                           | None => p
                           | Some t => Z.max p (priority_ t)
                           end) /\
  pq_empty (add p f q) = false /\
  Permutation (pq_elems (add p f q)) (handler_of (p, f) :: pq_elems q).
Proof.
  split; [apply top_after_add|]. split; [|apply add_queued].
  destruct (top_after_add p f q) as (h & Ht & _). unfold pq_empty. rewrite Ht.
  reflexivity.
Qed.

(** ** The drain loops on arbitrary tasks *)

Section DrainAnyTasks.
Context {Q : PriorityQueue}.

Lemma drains_on_empty (st : queue_state) (n : nat) :
  queued st = [] ->
  execute_all n st = Returned tt st /\
  execute_highest n st = Returned false st /\
  execute_high n st = Returned tt st.
Proof.
  intros He. pose proof (proj2 (pq_top_none _) He) as Ht.
  rewrite execute_all_eq, execute_highest_eq, execute_high_eq, Ht.
  unfold pq_empty. rewrite Ht. auto.
Qed.

Lemma execute_all_returns_empty (fuel : nat) :
  forall st st', execute_all fuel st = Returned tt st' -> queued st' = [].
Proof.
  induction fuel as [|fuel IH]; intros st st' H; rewrite execute_all_eq in H;
    destruct (pq_top (handlers_ st)) as [h|] eqn:Ht; try discriminate.
  - injection H as <-. apply pq_top_none. exact Ht.
  - destruct (execute h st) as [[] st1]; [discriminate|]. eapply IH; exact H.
  - injection H as <-. apply pq_top_none. exact Ht.
Qed.

Lemma execute_high_returns_below_high (fuel : nat) :
  forall st st', execute_high fuel st = Returned tt st' ->
                 Forall below_high (queued st').
Proof.
  induction fuel as [|fuel IH]; intros st st' H; rewrite execute_high_eq in H;
    destruct (pq_top (handlers_ st)) as [h|] eqn:Ht;
    try destruct (priority_ h <? priority.high) eqn:Hlow; try discriminate.
  - injection H as <-. apply Z.ltb_lt in Hlow.
    eapply Forall_impl; [|apply (top_greatest _ _ Ht)].
    unfold runs_before, below_high. intros x Hx. lia.
  - injection H as <-. apply pq_top_none in Ht. unfold queued. rewrite Ht. constructor.
  - injection H as <-. apply Z.ltb_lt in Hlow.
    eapply Forall_impl; [|apply (top_greatest _ _ Ht)].
    unfold runs_before, below_high. intros x Hx. lia.
  - destruct (execute h st) as [[] st1]; [discriminate|]. eapply IH; exact H.
  - injection H as <-. apply pq_top_none in Ht. unfold queued. rewrite Ht. constructor.
Qed.

Lemma execute_highest_flag (fuel : nat) :
  forall st b st', execute_highest fuel st = Returned b st' ->
                   b = negb (pq_empty (handlers_ st')).
Proof.
  induction fuel as [|fuel IH]; intros st b st' H; rewrite execute_highest_eq in H;
    destruct (pq_top (handlers_ st)) as [h|] eqn:Ht; try discriminate.
  - injection H as <- <-. reflexivity.
  - destruct (execute h st) as [[] st1]; [discriminate|].
    destruct (priority_ h <? priority.high).
    + injection H as <- <-. reflexivity.
    + eapply IH; exact H.
  - injection H as <- <-. reflexivity.
Qed.


Lemma execute_all_trace_grows (fuel : nat) :
  forall st, exists more, trace (final_state (execute_all fuel st)) = trace st ++ more.
Proof.
  induction fuel as [|fuel IH]; intros st; rewrite execute_all_eq;
    destruct (pq_top (handlers_ st)) as [h|] eqn:Ht;
    try (exists []; simpl; rewrite app_nil_r; reflexivity).
  unfold execute. destruct (raises (function_ h)).
  - exists [h]. reflexivity.
  - match goal with |- context [execute_all fuel ?s] => destruct (IH s) as [more Hm] end.
    exists (h :: more). rewrite Hm. simpl. rewrite <- app_assoc. reflexivity.
Qed.

Lemma execute_highest_trace_grows (fuel : nat) :
  forall st, exists more, trace (final_state (execute_highest fuel st)) = trace st ++ more.
Proof.
  induction fuel as [|fuel IH]; intros st; rewrite execute_highest_eq;
    destruct (pq_top (handlers_ st)) as [h|] eqn:Ht;
    try (exists []; simpl; rewrite app_nil_r; reflexivity).
  unfold execute. destruct (raises (function_ h)).
  - exists [h]. reflexivity.
  - destruct (priority_ h <? priority.high).
    + exists [h]. reflexivity.
    + match goal with |- context [execute_highest fuel ?s] => destruct (IH s) as [more Hm] end.
      exists (h :: more). rewrite Hm. simpl. rewrite <- app_assoc. reflexivity.
Qed.

End DrainAnyTasks.

(** X3. Whatever the tasks do (enqueue, throw), when [execute_all] returns
    the queue is empty; a further drain call of any kind then returns at
    once, with nothing run and [execute_highest] answering [false]. *)
Theorem execute_all_returns_with_empty_queue
        (Q : PriorityQueue) (fuel : nat) (st st' : queue_state) :
  execute_all fuel st = Returned tt st' ->
  queued st' = [] /\ pq_empty (handlers_ st') = true /\
  forall n, execute_all n st' = Returned tt st' /\
            execute_highest n st' = Returned false st' /\
            execute_high n st' = Returned tt st'.
Proof.
  intros H. pose proof (execute_all_returns_empty fuel st st' H) as He.
  split; [exact He|]. split; [now apply empty_iff_nothing_queued|].
  intros n. now apply drains_on_empty.
Qed.

Lemma execute_all_returns_with_empty_queue_witness :
  queued (final_state
            (execute_all 2 (list_state [(100, Task 1 [(10, sample_task 2)] false)]))) = [].
Proof.
  apply (execute_all_returns_with_empty_queue ListQueue 2
           (list_state [(100, Task 1 [(10, sample_task 2)] false)])
           (final_state
              (execute_all 2 (list_state [(100, Task 1 [(10, sample_task 2)] false)])))).
  reflexivity.
Defined.

(** X4. Whatever the tasks do, when [execute_high] returns every handler
    still queued is below [priority::high], and calling it again changes
    nothing. *)
Theorem execute_high_returns_with_no_high_left
        (Q : PriorityQueue) (fuel : nat) (st st' : queue_state) :
  execute_high fuel st = Returned tt st' ->
  Forall below_high (queued st') /\
  forall n, execute_high n st' = Returned tt st'.
Proof.
  intros H. pose proof (execute_high_returns_below_high fuel st st' H) as Hb.
  split; [exact Hb|]. intros n. now apply execute_high_nothing_to_do.
Qed.

Lemma execute_high_returns_with_no_high_left_witness :
  Forall below_high
    (queued (final_state
               (execute_high 2 (list_state [(100, Task 1 [(10, sample_task 2)] false);
                                            (50, sample_task 3)])))).
Proof.
  apply (execute_high_returns_with_no_high_left ListQueue 2
           (list_state [(100, Task 1 [(10, sample_task 2)] false); (50, sample_task 3)])
           (final_state
              (execute_high 2 (list_state [(100, Task 1 [(10, sample_task 2)] false);
                                           (50, sample_task 3)])))).
  reflexivity.
Defined.

(** X5. Whatever the tasks do, the value [execute_highest] returns tells
    whether handlers are left: [true] exactly when the queue is not empty,
    and after [false] an [execute_all] has nothing to run. *)
Theorem execute_highest_reports_what_is_left
        (Q : PriorityQueue) (fuel : nat) (st st' : queue_state) (b : bool) :
  execute_highest fuel st = Returned b st' ->
  (b = true <-> queued st' <> []) /\
  (b = false <-> queued st' = []) /\
  (b = false -> forall n, execute_all n st' = Returned tt st').
Proof.
  intros H. pose proof (execute_highest_flag fuel st b st' H) as Hb.
  assert (b = false <-> queued st' = []) as Hf.
  { rewrite Hb, negb_false_iff. apply empty_iff_nothing_queued. }
  split; [|split; [exact Hf|]].
  - rewrite Hb. apply returned_flag.
  - intros Hb' n. apply drains_on_empty. now apply Hf.
Qed.

Lemma execute_highest_reports_what_is_left_witness :
  (true = true <->
   queued (final_state
             (execute_highest 3 (list_state [(100, Task 1 [(10, sample_task 2)] false);
                                             (50, sample_task 3)]))) <> []).
Proof.
  apply (execute_highest_reports_what_is_left ListQueue 3
           (list_state [(100, Task 1 [(10, sample_task 2)] false); (50, sample_task 3)])
           (final_state
              (execute_highest 3 (list_state [(100, Task 1 [(10, sample_task 2)] false);
                                              (50, sample_task 3)])))
           true).
  reflexivity.
Defined.

(** X6. Whatever the tasks do, a drain call on a non-empty queue starts
    with the handler on top: [execute_all] and [execute_highest] run it
    first (so [execute_highest] runs at least one handler), and so does
    [execute_high] when that handler is of the high tier. *)
Theorem drains_start_with_the_top
        (Q : PriorityQueue) (fuel : nat) (st : queue_state) (h : queued_handler) :
  pq_top (handlers_ st) = Some h ->
  (exists more,
     trace (final_state (execute_all (S fuel) st)) = trace st ++ h :: more) /\
  (exists more,
     trace (final_state (execute_highest (S fuel) st)) = trace st ++ h :: more) /\
  (high_tier h ->
   exists more,
     trace (final_state (execute_high (S fuel) st)) = trace st ++ h :: more).
Proof.
  intros Ht. split; [|split].
  - rewrite execute_all_eq, Ht. unfold execute. destruct (raises (function_ h)).
    + exists []. reflexivity.
    + match goal with |- context [execute_all fuel ?s] =>
        destruct (execute_all_trace_grows fuel s) as [more Hm] end.
      exists more. rewrite Hm. simpl. rewrite <- app_assoc. reflexivity.
  - rewrite execute_highest_eq, Ht. unfold execute. destruct (raises (function_ h)).
    + exists []. reflexivity.
    + destruct (priority_ h <? priority.high); [exists []; reflexivity|].
      match goal with |- context [execute_highest fuel ?s] =>
        destruct (execute_highest_trace_grows fuel s) as [more Hm] end.
      exists more. rewrite Hm. simpl. rewrite <- app_assoc. reflexivity.
  - intros Hh. rewrite execute_high_eq, Ht.
    apply Z.ltb_ge in Hh. rewrite Hh. unfold execute. destruct (raises (function_ h)).
    + exists []. reflexivity.
    + match goal with |- context [execute_high fuel ?s] =>
        destruct (execute_high_only_high fuel s) as (more & Hm & _) end.
      exists more. rewrite Hm. simpl. rewrite <- app_assoc. reflexivity.
Qed.

Lemma drains_start_with_the_top_witness :
  exists more,
    trace (final_state
             (execute_highest 1 (list_state [(10, failing_task 1); (50, sample_task 2)])))
    = [] ++ handler_of (50, sample_task 2) :: more.
Proof.
  apply (drains_start_with_the_top ListQueue 0
           (list_state [(10, failing_task 1); (50, sample_task 2)])
           (handler_of (50, sample_task 2))).
  reflexivity.
Defined.





(** ** Tasks that enqueue while they run *)

Section EnqueueFacts.
Context {Q : PriorityQueue}.

(** The state after one iteration of [execute_all] whose task returned. *)
Lemma execute_all_iteration (n : nat) (st : queue_state) (h : queued_handler) :
  pq_top (handlers_ st) = Some h -> raises (function_ h) = false ->
  execute_all (S n) st = execute_all n (pop (snd (execute h st))).
Proof.
  intros Ht Hr. rewrite execute_all_eq, Ht. unfold execute. rewrite Hr. reflexivity.
Qed.

Lemma queued_after_execute (st : queue_state) (h : queued_handler) :
  Permutation (queued (snd (execute h st)))
              (map handler_of (enqueues (function_ h)) ++ queued st).
Proof. unfold queued, execute. simpl. apply add_all_queued. Qed.

(** The handler popped after running [h], when everything [h] enqueued is
    strictly below it: one of the old handlers, of the priority of [h]. *)
Lemma pop_after_enqueue_below (st : queue_state) (h : queued_handler) :
  pq_top (handlers_ st) = Some h ->
  Forall (fun pf => fst pf < priority_ h) (enqueues (function_ h)) ->
  exists x,
    In x (queued st) /\ priority_ x = priority_ h /\
    Permutation (x :: queued (pop (snd (execute h st))))
                (map handler_of (enqueues (function_ h)) ++ queued st).
Proof.
  intros Ht Hlow.
  pose proof (queued_after_execute st h) as Hperm.
  destruct (pq_top (handlers_ (snd (execute h st)))) as [x|] eqn:Hx.
  - exists x.
    pose proof (top_queued _ _ Hx) as Hin. fold (queued (snd (execute h st))) in Hin.
    pose proof (top_greatest _ _ Hx) as Hmax. fold (queued (snd (execute h st))) in Hmax.
    rewrite Hperm in Hmax. apply Forall_app in Hmax. destruct Hmax as [_ Hold].
    pose proof (proj1 (Forall_forall _ _) Hold h (top_queued _ _ Ht)) as Hhx.
    unfold runs_before in Hhx.
    apply (Permutation_in _ Hperm), in_app_or in Hin.
    destruct Hin as [Hnew | Hin].
    + exfalso. apply in_map_iff in Hnew. destruct Hnew as (pf & <- & Hpf).
      pose proof (proj1 (Forall_forall _ _) Hlow pf Hpf) as Hlt.
      unfold handler_of in Hhx. simpl in *. lia.
    + split; [exact Hin|]. split.
      * pose proof (proj1 (Forall_forall _ _) (top_greatest _ _ Ht) x Hin) as Hxh.
        unfold runs_before in Hxh. lia.
      * rewrite <- Hperm. unfold queued, pop. simpl. apply pq_pop_elems. exact Hx.
  - exfalso. apply pq_top_none in Hx. fold (queued (snd (execute h st))) in Hx.
    rewrite Hx in Hperm.
    pose proof (Permutation_in h (Permutation_sym Hperm)) as Hnone.
    destruct Hnone. apply in_or_app. right. apply top_queued. exact Ht.
Qed.

(** The handler popped after running [h], when [h] enqueued one handler
    strictly above itself: that new handler. *)
Lemma pop_after_enqueue_above (st : queue_state) (h : queued_handler) (g : Z * task) :
  pq_top (handlers_ st) = Some h ->
  enqueues (function_ h) = [g] -> priority_ h < fst g ->
  Permutation (queued (pop (snd (execute h st)))) (queued st).
Proof.
  intros Ht Hg Hlt.
  pose proof (queued_after_execute st h) as Hperm. rewrite Hg in Hperm.
  cbn [map app] in Hperm.
  destruct (pq_top (handlers_ (snd (execute h st)))) as [x|] eqn:Hx.
  - pose proof (top_queued _ _ Hx) as Hin. fold (queued (snd (execute h st))) in Hin.
    pose proof (top_greatest _ _ Hx) as Hmax. fold (queued (snd (execute h st))) in Hmax.
    rewrite Hperm in Hmax. inversion Hmax as [|? ? Hgx _]; subst.
    unfold runs_before, handler_of in Hgx. simpl in Hgx.
    apply (Permutation_in _ Hperm) in Hin. destruct Hin as [<- | Hin].
    + apply Permutation_cons_inv with (a := handler_of g).
      rewrite <- Hperm. unfold queued, pop. simpl. apply pq_pop_elems. exact Hx.
    + exfalso.
      pose proof (proj1 (Forall_forall _ _) (top_greatest _ _ Ht) x Hin) as Hxh.
      unfold runs_before in Hxh. lia.
  - exfalso. apply pq_top_none in Hx. fold (queued (snd (execute h st))) in Hx.
    rewrite Hx in Hperm. apply Permutation_nil in Hperm. discriminate.
Qed.

End EnqueueFacts.

(** X9. A task that enqueues work strictly below its own priority is
    safe: after it has run, the handler popped is one of those that were
    queued before, of the same priority as the task (the task itself when
    no other queued handler shares its priority), and the new handlers are
    all in the queue, where the same [execute_all] goes on to find them. *)
Theorem enqueue_below_is_kept
        (Q : PriorityQueue) (n : nat) (st : queue_state) (h : queued_handler) :
  pq_top (handlers_ st) = Some h ->
  raises (function_ h) = false ->
  Forall (fun pf => fst pf < priority_ h) (enqueues (function_ h)) ->
  execute_all (S n) st = execute_all n (pop (snd (execute h st))) /\
  trace (pop (snd (execute h st))) = trace st ++ [h] /\
  exists x,
    In x (queued st) /\ priority_ x = priority_ h /\
    Permutation (x :: queued (pop (snd (execute h st))))
                (map handler_of (enqueues (function_ h)) ++ queued st).
Proof.
  intros Ht Hr Hlow. split; [now apply execute_all_iteration|].
  split; [reflexivity|]. now apply pop_after_enqueue_below.
Qed.

Lemma enqueue_below_is_kept_witness :
  execute_all 2 (list_state [(100, Task 1 [(10, sample_task 2)] false)])
  = execute_all 1
      (pop (snd (execute (handler_of (100, Task 1 [(10, sample_task 2)] false))
                         (list_state [(100, Task 1 [(10, sample_task 2)] false)])))).
Proof.
  apply (enqueue_below_is_kept ListQueue 1
           (list_state [(100, Task 1 [(10, sample_task 2)] false)])
           (handler_of (100, Task 1 [(10, sample_task 2)] false))).
  - reflexivity.
  - reflexivity.
  - repeat constructor.
Defined.

(** X10. A task that enqueues a handler strictly above its own priority
    loses it: the [pop] that follows the task's return removes the new
    handler, which has not run, and the queue holds again exactly what it
    held before the iteration, the task that just ran included. *)
Theorem enqueue_above_is_dropped
        (Q : PriorityQueue) (n : nat) (st : queue_state) (h : queued_handler)
        (g : Z * task) :
  pq_top (handlers_ st) = Some h ->
  raises (function_ h) = false ->
  enqueues (function_ h) = [g] -> priority_ h < fst g ->
  execute_all (S n) st = execute_all n (pop (snd (execute h st))) /\
  trace (pop (snd (execute h st))) = trace st ++ [h] /\
  Permutation (queued (pop (snd (execute h st)))) (queued st) /\
  In h (queued (pop (snd (execute h st)))).
Proof.
  intros Ht Hr Hg Hlt. split; [now apply execute_all_iteration|].
  split; [reflexivity|].
  pose proof (pop_after_enqueue_above st h g Ht Hg Hlt) as Hperm.
  split; [exact Hperm|].
  apply (Permutation_in _ (Permutation_sym Hperm)). apply top_queued. exact Ht.
Qed.

Lemma enqueue_above_is_dropped_witness :
  Permutation
    (queued (pop (snd (execute (handler_of (10, Task 1 [(100, sample_task 2)] false))
                               (list_state [(10, Task 1 [(100, sample_task 2)] false)])))))
    (queued (list_state [(10, Task 1 [(100, sample_task 2)] false)])).
Proof.
  apply (enqueue_above_is_dropped ListQueue 0
           (list_state [(10, Task 1 [(100, sample_task 2)] false)])
           (handler_of (10, Task 1 [(100, sample_task 2)] false))
           (100, sample_task 2)).
  - reflexivity.
  - reflexivity.
  - reflexivity.
  - simpl. lia.
Defined.

(** ** Methods: failure, the error text, registration order *)

Section MethodMore.
Variables Args Ret : Type.

Local Abbreviation pbody := (connection_body (provider Args Ret)).

Lemma throws_have_diagnostics (args : Args) (l : list pbody) :
  Forall (throws_on args) l ->
  exists ds, Forall2 (fun (b : pbody) d => slot_function b args = inr d) l ds.
Proof.
  induction 1 as [|b l [d Hd] _ [ds IH]].
  - exists []. constructor.
  - exists (d :: ds). constructor; assumption.
Qed.

(** The policy on a run of throwing providers followed by one that
    returns: the diagnostics stay in [err]. *)
Lemma first_success_keeps_diagnostics (args : Args) (p : pbody) (post : list pbody)
      (r : Ret) :
  slot_function p args = inl r ->
  forall (pre : list pbody) (ds : list string) self visited,
    Forall2 (fun (b : pbody) d => slot_function b args = inr d) pre ds ->
    first_success args (pre ++ p :: post) self visited
    = (Ok r, {| err := aggregate (err self) ds |},
       visited ++ map body_id pre ++ [body_id p]).
Proof.
  intros Hp. induction pre as [|b pre IH]; intros ds self visited Hall;
    inversion Hall as [|? d ? ds' Hd Hrest]; subst; simpl.
  - rewrite Hp. destruct self. reflexivity.
  - rewrite Hd, (IH ds' _ _ Hrest), <- app_assoc. reflexivity.
Qed.

Lemma append_empty_r (a : string) : (a ++ "")%string = a.
Proof. induction a as [|x a IH]; simpl; [reflexivity|]. rewrite IH. reflexivity. Qed.

Lemma record_failure_extends (self : first_success_policy) (d : string) :
  exists suffix, err (record_failure self d) = (err self ++ suffix)%string.
Proof.
  unfold record_failure. simpl. destruct (string_empty (err self)).
  - exists d. reflexivity.
  - exists (quote_comma_quote ++ d)%string. apply append_assoc.
Qed.

Lemma first_success_extends_err (args : Args) :
  forall (l : list pbody) self visited,
    exists suffix,
      err (snd (fst (first_success args l self visited))) = (err self ++ suffix)%string.
Proof.
  induction l as [|b l IH]; intros self visited; simpl.
  - exists ""%string. symmetry. apply append_empty_r.
  - destruct (slot_function b args) as [r|d]; simpl.
    + exists ""%string. symmetry. apply append_empty_r.
    + destruct (IH (record_failure self d) (visited ++ [body_id b])) as [s Hs].
      destruct (record_failure_extends self d) as [s' Hs'].
      exists (s' ++ s)%string. rewrite Hs, Hs'. apply append_assoc.
Qed.

Lemma first_success_visits_prefix (args : Args) :
  forall (l : list pbody) self visited,
    exists k, snd (first_success args l self visited)
              = visited ++ map body_id (firstn k l).
Proof.
  induction l as [|b l IH]; intros self visited; simpl.
  - exists O. rewrite app_nil_r. reflexivity.
  - destruct (slot_function b args) as [r|d].
    + exists 1%nat. reflexivity.
    + destruct (IH (record_failure self d) (visited ++ [body_id b])) as [k Hk].
      exists (S k). rewrite Hk, <- app_assoc. reflexivity.
Qed.

Lemma invoke_parts (m : method Args Ret) (args : Args) :
  invoke m args
  = (fst (fst (first_success args (slot_calls (_signal m)) (combiner (_signal m)) [])),
     {| _signal :=
          {| bodies := bodies (_signal m);
             combiner := snd (fst (first_success args (slot_calls (_signal m))
                                                 (combiner (_signal m)) []));
             next_id := next_id (_signal m) |} |},
     snd (first_success args (slot_calls (_signal m)) (combiner (_signal m)) [])).
Proof.
  unfold invoke.
  destruct (first_success args (slot_calls (_signal m)) (combiner (_signal m)) [])
    as [[r self] visited]. reflexivity.
Qed.

Lemma unregister_slot_calls (h : handle) (m : method Args Ret) :
  Forall (fun b : pbody => refers_to (_handle h) b = false)
         (slot_calls (_signal (unregister h m))).
Proof.
  unfold unregister. destruct (connected (_handle h) (_signal m)) eqn:Hc.
  - simpl _signal. rewrite slot_calls_after_disconnect.
    apply Forall_forall. intros b Hb. apply filter_In in Hb.
    destruct Hb as [_ Hb]. now apply negb_true_iff in Hb.
  - apply Forall_forall. intros b Hb. apply filter_In in Hb. destruct Hb as [Hin Hconn].
    unfold connected in Hc.
    destruct (refers_to (_handle h) b) eqn:Hr; [|reflexivity].
    assert (existsb (fun b0 : pbody => refers_to (_handle h) b0 && is_connected b0)
                    (bodies (_signal m)) = true) as Hex.
    { apply existsb_exists. exists b. split; [exact Hin|]. rewrite Hr, Hconn. reflexivity. }
    congruence.
Qed.

Lemma goes_before_later (g : option Z) (b x : pbody) :
  goes_before _ g b = true -> by_group b x -> goes_before _ g x = true.
Proof.
  unfold goes_before, by_group.
  destruct g as [x0|]; [|discriminate].
  destruct (group b) as [y|], (group x) as [z|]; auto; try contradiction.
  intros H1 H2. apply Z.ltb_lt in H1. apply Z.ltb_lt. lia.
Qed.

Lemma insert_body_splits (n : pbody) (l : list pbody) :
  StronglySorted by_group l ->
  insert_body n l
  = filter (fun b => negb (goes_before _ (group n) b)) l
    ++ n :: filter (goes_before _ (group n)) l.
Proof.
  induction 1 as [|b r Hs IH Hb]; simpl; [reflexivity|].
  destruct (goes_before _ (group n) b) eqn:Hg; simpl.
  - assert (Forall (fun x => goes_before _ (group n) x = true) r) as Hall.
    { eapply Forall_impl; [|exact Hb]. intros x. now apply goes_before_later. }
    rewrite (filter_keeps_all _ r Hall).
    rewrite (filter_drops_all (fun x => negb (goes_before _ (group n) x)) r).
    + reflexivity.
    + eapply Forall_impl; [|exact Hall]. intros x Hx. simpl in Hx. rewrite Hx. reflexivity.
  - rewrite IH. reflexivity.
Qed.

Lemma filter_swap {A : Type} (f g : A -> bool) (l : list A) :
  filter f (filter g l) = filter g (filter f l).
Proof.
  induction l as [|x l IH]; simpl; [reflexivity|].
  destruct (f x) eqn:Hf, (g x) eqn:Hg; simpl; rewrite ?Hf, ?Hg, IH; reflexivity.
Qed.

End MethodMore.

(** X12. An invocation under [first_success_policy] throws exactly when
    every connected provider throws, which includes the case of no provider
    at all; when it throws, every connected provider was run once, in
    order.  An invocation never changes which providers are registered. *)
Theorem invoke_throws_iff_all_providers_throw
        (Args Ret : Type) (m : method Args Ret) (args : Args) :
  ((exists what, fst (fst (invoke m args)) = Exception what)
   <-> Forall (throws_on args) (slot_calls (_signal m))) /\
  (Forall (throws_on args) (slot_calls (_signal m)) ->
   snd (invoke m args) = map body_id (slot_calls (_signal m))) /\
  (slot_calls (_signal m) = [] ->
   fst (fst (invoke m args)) = Exception (no_result (err (combiner (_signal m))))) /\
  bodies (_signal (snd (fst (invoke m args)))) = bodies (_signal m).
Proof.
  destruct (invoke_aggregate_failure Args Ret m args) as [Hiff Hall].
  split; [exact Hiff|]. split; [|split].
  - intros Hthrow.
    destruct (throws_have_diagnostics Args Ret args _ Hthrow) as [ds Hds].
    apply (Hall ds Hds).
  - intros He. rewrite invoke_parts, He. reflexivity.
  - apply invoke_bodies.
Qed.

Lemma invoke_throws_iff_all_providers_throw_witness :
  snd (invoke both_failing tt) = map body_id (slot_calls (_signal both_failing)).
Proof.
  apply (invoke_throws_iff_all_providers_throw unit string both_failing tt).
  repeat constructor; eexists; reflexivity.
Defined.

(** X13. On a policy object whose [err] is still empty, when every provider
    throws (each with a non-empty diagnostic) the exception text is
    [No Result Available, All providers returned exceptions[] followed by
    the diagnostics in the order the providers were visited, joined by the
    three characters quote, comma, quote, and a closing bracket. *)
Theorem first_failure_lists_the_diagnostics
        (Args Ret : Type) (m : method Args Ret) (args : Args) (ds : list string) :
  err (combiner (_signal m)) = EmptyString ->
  Forall2 (fun (b : connection_body (provider Args Ret)) d =>
             slot_function b args = inr d) (slot_calls (_signal m)) ds ->
  Forall (fun d => d <> EmptyString) ds ->
  fst (fst (invoke m args))
  = Exception (no_result (String.concat quote_comma_quote ds)).
Proof.
  intros Hfresh Hds Hne.
  destruct (invoke_aggregate_failure Args Ret m args) as [_ Hall].
  destruct (Hall ds Hds) as (Hres & _ & _).
  rewrite Hres, Hfresh, aggregate_fresh by exact Hne. reflexivity.
Qed.

Lemma first_failure_lists_the_diagnostics_witness :
  fst (fst (invoke both_failing tt))
  = Exception (no_result (String.concat quote_comma_quote
                                        ["P1 failed"%string; "P2 failed"%string])).
Proof.
  apply (first_failure_lists_the_diagnostics unit string both_failing tt
           ["P1 failed"%string; "P2 failed"%string]).
  - reflexivity.
  - repeat constructor.
  - repeat constructor; discriminate.
Defined.

(** X14. The policy's [err] is only ever appended to.  An invocation
    leaves it extended by a suffix; when providers threw before one
    returned, their diagnostics are in it although the call succeeded;
    registering and unregistering providers leave it as it is. *)
Theorem policy_err_only_grows
        (Args Ret : Type) (m : method Args Ret) (args : Args) :
  (exists suffix,
     err (combiner (_signal (snd (fst (invoke m args)))))
     = (err (combiner (_signal m)) ++ suffix)%string) /\
  (forall pre p post ds r,
     slot_calls (_signal m) = pre ++ p :: post ->
     Forall2 (fun (b : connection_body (provider Args Ret)) d =>
                slot_function b args = inr d) pre ds ->
     slot_function p args = inl r ->
     fst (fst (invoke m args)) = Ok r /\
     err (combiner (_signal (snd (fst (invoke m args)))))
     = aggregate (err (combiner (_signal m))) ds) /\
  (forall p g, err (combiner (_signal (snd (register_provider p g m))))
               = err (combiner (_signal m))) /\
  (forall h, err (combiner (_signal (unregister h m))) = err (combiner (_signal m))).
Proof.
  split; [|split; [|split]].
  - rewrite invoke_parts. simpl. apply first_success_extends_err.
  - intros pre p post ds r Hcalls Hpre Hp. rewrite invoke_parts, Hcalls.
    rewrite (first_success_keeps_diagnostics Args Ret args p post r Hp pre ds _ [] Hpre).
    simpl. auto.
  - reflexivity.
  - intros h. unfold unregister. destruct (connected (_handle h) (_signal m)); reflexivity.
Qed.

Lemma policy_err_only_grows_witness :
  fst (fst (invoke sample_method tt)) = Ok "ok"%string /\
  err (combiner (_signal (snd (fst (invoke sample_method tt)))))
  = aggregate (err (combiner (_signal sample_method))) ["P1 failed"%string].
Proof.
  apply (policy_err_only_grows unit string sample_method tt)
    with (pre := [{| body_id := 1; group := Some 5; is_connected := true;
                     slot_function := p_raises |}])
         (p := {| body_id := 0; group := Some 7; is_connected := true;
                  slot_function := p_ok |})
         (post := []).
  - reflexivity.
  - repeat constructor.
  - reflexivity.
Defined.

(** X15. [register_provider(p, g)] places the new provider behind every
    connected provider whose priority is at most [g] and in front of every
    one whose priority is greater, leaving the order of the others as it
    was: lower priorities are called first and equal priorities in the
    order of registration. *)
Theorem register_provider_keeps_priority_order
        (Args Ret : Type) (m : method Args Ret) (p : provider Args Ret) (g : Z) :
  method_reachable m ->
  slot_calls (_signal (snd (register_provider p g m)))
  = filter (fun b => negb (goes_before _ (Some g) b)) (slot_calls (_signal m))
    ++ {| body_id := next_id (_signal m); group := Some g;
          is_connected := true; slot_function := p |}
    :: filter (goes_before _ (Some g)) (slot_calls (_signal m)).
Proof.
  intros Hreach. destruct (method_reachable_wf _ _ m Hreach) as [[_ Hsorted] _].
  unfold register_provider, slot_calls. simpl.
  rewrite (insert_body_splits Args Ret _ _ Hsorted). simpl.
  rewrite filter_app. simpl.
  rewrite (filter_swap is_connected), (filter_swap is_connected). reflexivity.
Qed.

Lemma register_provider_keeps_priority_order_witness :
  slot_calls (_signal (snd (register_provider p_raises_too 5 sample_method)))
  = filter (fun b => negb (goes_before _ (Some 5) b)) (slot_calls (_signal sample_method))
    ++ {| body_id := next_id (_signal sample_method); group := Some 5;
          is_connected := true; slot_function := p_raises_too |}
    :: filter (goes_before _ (Some 5)) (slot_calls (_signal sample_method)).
Proof.
  apply (register_provider_keeps_priority_order unit string sample_method p_raises_too 5).
  unfold sample_method. apply reach_register. apply reach_register. apply reach_new.
Defined.

Lemma firstn_subset {A : Type} (k : nat) :
  forall (l : list A) (x : A), In x (firstn k l) -> In x l.
Proof.
  induction k as [|k IH]; intros [|y l] x Hx; simpl in *; try contradiction.
  destruct Hx as [-> | Hx]; [now left | right; now apply IH].
Qed.

(** X16. Once a handle has been unregistered or destroyed, no invocation
    runs the provider it stood for. *)
Theorem unregistered_provider_is_never_run
        (Args Ret : Type) (m : method Args Ret) (h : handle) (id : nat) (args : Args) :
  _handle h = Some id ->
  Forall (fun i => i <> id) (snd (invoke (unregister h m) args)) /\
  Forall (fun i => i <> id) (snd (invoke (handle_destroy h m) args)).
Proof.
  intros Hid. unfold handle_destroy.
  assert (Forall (fun i => i <> id) (snd (invoke (unregister h m) args))) as Hnot.
  { rewrite invoke_parts. simpl.
    destruct (first_success_visits_prefix Args Ret args
                (slot_calls (_signal (unregister h m)))
                (combiner (_signal (unregister h m))) []) as [k Hk].
    rewrite Hk. simpl. apply Forall_map. apply Forall_forall. intros b Hb.
    apply firstn_subset in Hb.
    pose proof (proj1 (Forall_forall _ _) (unregister_slot_calls Args Ret h m) b Hb) as Hr.
    rewrite Hid in Hr. simpl in Hr. apply Nat.eqb_neq. exact Hr. }
  split; exact Hnot.
Qed.

Lemma unregistered_provider_is_never_run_witness :
  Forall (fun i => i <> 1%nat)
         (snd (invoke (unregister {| _handle := Some 1%nat |} sample_method) tt)).
Proof.
  apply (unregistered_provider_is_never_run unit string sample_method
           {| _handle := Some 1%nat |} 1%nat tt).
  reflexivity.
Defined.

(** ** Channels: when subscribers are looked up, and in which order *)

Section ChannelMore.
Variable Data : Type.

Local Abbreviation cbody := (connection_body (subscriber Data)).

Lemma run_fan_out_delivers (t : fan_out Data) (w : channel_world Data) :
  run_fan_out t w
  = (Ok tt,
     {| this_channel := this_channel w;
        ios_posted := ios_posted w;
        payload_copies := payload_copies w;
        deliveries := deliveries w
                      ++ one_delivery_each (captured t)
                           (slot_calls (base_signal (this_channel w))) |}).
Proof. unfold run_fan_out. rewrite drop_exceptions_runs_all. reflexivity. Qed.

Lemma insert_ungrouped_at_back (n : cbody) (l : list cbody) :
  group n = None -> insert_body n l = l ++ [n].
Proof.
  intros Hn. induction l as [|b r IH]; simpl; [reflexivity|].
  rewrite Hn. simpl. rewrite IH. reflexivity.
Qed.

End ChannelMore.

(** X17. The closure that [publish] posts looks the subscribers up when it
    runs, not when it was posted: it delivers the published payload to the
    subscribers connected at the time the dispatcher runs it.  A subscriber
    unsubscribed between the publish and the run is not called. *)
Theorem fan_out_reaches_subscribers_at_run_time
        (Data : Type) (data : Data) (w : channel_world Data) :
  slot_calls (base_signal (this_channel w)) <> [] ->
  ios_posted w = [] ->
  (forall c' : channel Data,
     exists w',
       ios_run_one (set_channel c' (publish data w)) = Some (Ok tt, w') /\
       deliveries w' = deliveries w ++ one_delivery_each data (slot_calls (base_signal c'))) /\
  (forall h : connection,
     exists w',
       ios_run_one (set_channel (unsubscribe h (this_channel w)) (publish data w))
       = Some (Ok tt, w') /\
       deliveries w'
       = deliveries w
         ++ one_delivery_each data
              (filter (fun b => negb (refers_to h b))
                      (slot_calls (base_signal (this_channel w))))).
Proof.
  intros Hne Hq.
  assert (forall c' : channel Data,
            exists w',
              ios_run_one (set_channel c' (publish data w)) = Some (Ok tt, w') /\
              deliveries w'
              = deliveries w ++ one_delivery_each data (slot_calls (base_signal c')))
    as Hgen.
  { intros c'. rewrite (publish_with_subscribers Data data w Hne).
    unfold set_channel, ios_run_one. simpl. rewrite Hq. simpl.
    rewrite run_fan_out_delivers. simpl. eexists. split; reflexivity. }
  split; [exact Hgen|].
  intros h. destruct (Hgen (unsubscribe h (this_channel w))) as (w' & Hrun & Hdel).
  exists w'. split; [exact Hrun|]. rewrite Hdel. unfold unsubscribe. simpl.
  rewrite slot_calls_after_disconnect. reflexivity.
Qed.

Lemma fan_out_reaches_subscribers_at_run_time_witness :
  exists w',
    ios_run_one (set_channel (unsubscribe (Some 1%nat) sample_channel)
                             (publish 7%nat (world_of sample_channel)))
    = Some (Ok tt, w') /\
    deliveries w'
    = [] ++ one_delivery_each 7%nat
              (filter (fun b => negb (refers_to (Some 1%nat) b))
                      (slot_calls (base_signal sample_channel))).
Proof.
  apply (fan_out_reaches_subscribers_at_run_time nat 7%nat (world_of sample_channel)).
  - discriminate.
  - reflexivity.
Defined.

(** X18. [subscribe] puts the new subscriber behind all the others: the
    channel then has subscribers, the earlier ones keep their order, and a
    fan-out calls the new subscriber last. *)
Theorem subscribe_appends
        (Data : Type) (cb : subscriber Data) (c : channel Data) (data : Data) :
  slot_calls (base_signal (snd (subscribe cb c)))
  = slot_calls (base_signal c)
    ++ [{| body_id := next_id (base_signal c); group := None;
           is_connected := true; slot_function := cb |}] /\
  has_subscribers (snd (subscribe cb c)) = true /\
  one_delivery_each data (slot_calls (base_signal (snd (subscribe cb c))))
  = one_delivery_each data (slot_calls (base_signal c))
    ++ [(next_id (base_signal c), data)].
Proof.
  assert (slot_calls (base_signal (snd (subscribe cb c)))
          = slot_calls (base_signal c)
            ++ [{| body_id := next_id (base_signal c); group := None;
                   is_connected := true; slot_function := cb |}]) as Hcalls.
  { unfold subscribe, slot_calls. simpl.
    rewrite insert_ungrouped_at_back by reflexivity.
    rewrite filter_app. reflexivity. }
  split; [exact Hcalls|]. split.
  - unfold has_subscribers, num_slots. rewrite Hcalls, length_app. simpl.
    apply Nat.ltb_lt. lia.
  - rewrite Hcalls. unfold one_delivery_each. rewrite map_app. reflexivity.
Qed.

(** X20. [unregister] takes the provider its handle stands for out of the
    providers that invocations visit and nothing else: the other connected
    providers stay, in the order they had.  On a handle that is empty or
    already disconnected it changes nothing. *)
Theorem unregister_removes_only_its_provider
        (Args Ret : Type) (m : method Args Ret) (h : handle) :
  slot_calls (_signal (unregister h m))
  = filter (fun b => negb (refers_to (_handle h) b)) (slot_calls (_signal m)) /\
  (connected (_handle h) (_signal m) = false -> unregister h m = m) /\
  connected (_handle h) (_signal (unregister h m)) = false.
Proof.
  destruct (connected (_handle h) (_signal m)) eqn:Hc.
  - split; [|split].
    + unfold unregister. rewrite Hc. simpl. apply slot_calls_after_disconnect.
    + discriminate.
    + unfold unregister. rewrite Hc. simpl. apply connected_after_disconnect.
  - assert (unregister h m = m) as Hsame by (unfold unregister; rewrite Hc; reflexivity).
    split; [|split].
    + pose proof (unregister_slot_calls Args Ret h m) as Hnone. rewrite Hsame in *.
      symmetry. apply filter_keeps_all.
      eapply Forall_impl; [|exact Hnone]. intros b Hb. simpl in Hb. rewrite Hb. reflexivity.
    + intros _. exact Hsame.
    + rewrite Hsame. exact Hc.
Qed.

Lemma unregister_removes_only_its_provider_witness :
  unregister {| _handle := None |} sample_method = sample_method.
Proof.
  apply (unregister_removes_only_its_provider unit string sample_method
           {| _handle := None |}).
  reflexivity.
Defined.
